(** * sf-processor: policy engine and log tailer

    A shallow embedding of the policy engine (predicate algebra, field
    mapper, operations vocabulary, severity parsing, interpreter core) and
    of the rotation-aware log stream tailer, together with the properties
    that the code does or does not satisfy. *)

From Stdlib Require Import ZArith List String Ascii Bool Lia.
From Stdlib Require Import DecimalString DecimalPos.
From stdpp Require Import gmap strings list.

Local Open Scope string_scope.
Local Open Scope list_scope.
Local Open Scope Z_scope.

(** ** Predicate algebra  (package engine, Criterion) *)

Module Predicate.

(** A Go [error] value: [None] is [nil], [Some msg] a non-nil error. *)
Definition error := option string.

(** [type Predicate[R any] func(R) (bool, error)] *)
Definition Predicate (R : Type) : Type := R -> bool * error.

(** [type Criterion[R any] struct { Pred Predicate[R] }] *)
Record Criterion (R : Type) : Type := MkCriterion { Pred : Predicate R }.
Arguments MkCriterion {R} _.
Arguments Pred {R} _ _.

Section Algebra.
Context {R : Type}.

(** [func (c Criterion[R]) Eval(r R) (bool, error)] *)
Definition Eval (c : Criterion R) (r : R) : bool * error := Pred c r.

(** [func (c Criterion[R]) And(cr Criterion[R]) Criterion[R]].
    The named results [res], [err] of the closure are threaded as in the
    source: the inner [if] evaluates the receiver [c] a second time and
    the argument [cr] is not evaluated at all; the final
    [return false, err] is reached whenever one of the two tests
    [err != nil] fails. *)
Definition And (c cr : Criterion R) : Criterion R :=
  MkCriterion (fun r =>
    let '(b1, err) := Eval c r in
    match err with
    | Some _ =>
        let '(b2, err) := Eval c r in
        match err with
        | Some _ => (b1 && b2, err)
        | None => (false, err)
        end
    | None => (false, err)
    end).

(** [func (c Criterion[R]) Or(cr Criterion[R]) Criterion[R]] *)
Definition Or (c cr : Criterion R) : Criterion R :=
  MkCriterion (fun r =>
    let '(b1, err) := Eval c r in
    match err with
    | Some _ =>
        let '(b2, err) := Eval c r in
        match err with
        | Some _ => (b1 || b2, err)
        | None => (false, err)
        end
    | None => (false, err)
    end).

(** [func (c Criterion[R]) Not() Criterion[R]] *)
Definition Not (c : Criterion R) : Criterion R :=
  MkCriterion (fun r =>
    let '(res, err) := Eval c r in
    match err with
    | Some _ => (negb res, err)
    | None => (false, err)
    end).

(** The constants [True] and [False] of the operations vocabulary. *)
Definition True_ : Criterion R := MkCriterion (fun _ => (true, None)).
Definition False_ : Criterion R := MkCriterion (fun _ => (false, None)).

(** [All] and [Any] fold a slice of criteria with [And] / [Or]. *)
Definition All (criteria : list (Criterion R)) : Criterion R :=
  fold_left And criteria True_.
Definition Any (criteria : list (Criterion R)) : Criterion R :=
  fold_left Or criteria False_.

End Algebra.

End Predicate.

(** ** Interpreter core  (package engine, PolicyInterpreter) *)

Module Interp.
Import Predicate.

(** Modelled from the spec: the [Mode] type and its constants [AlertMode]
    and [EnrichMode] are declared outside the files at hand; the spec
    names the two execution modes [alert] and [enrich]. *)
Inductive Mode : Type := AlertMode | EnrichMode.

Definition Mode_eqb (a b : Mode) : bool :=
  match a, b with
  | AlertMode, AlertMode | EnrichMode, EnrichMode => true
  | _, _ => false
  end.

(** [type Priority int] with [Low], [Medium], [High]. *)
Inductive Priority : Type := Low | Medium | High.

(** [func (p Priority) String() string] *)
Definition Priority_String (p : Priority) : string :=
  match p with Low => "low" | Medium => "medium" | High => "high" end.

(** [type EnrichmentTag interface{}]; tags are kept as text. *)
Definition EnrichmentTag := string.

(** [type Rule[R any] struct] *)
Record Rule (R : Type) : Type := MkRule {
  Name : string;
  Desc : string;
  condition : Criterion R;
  Actions : list string;
  Tags : list EnrichmentTag;
  RPriority : Priority;
  Prefilter : list string;
  Enabled : bool
}.
Arguments MkRule {R}.
Arguments Name {R}.
Arguments Desc {R}.
Arguments condition {R}.
Arguments Actions {R}.
Arguments Tags {R}.
Arguments RPriority {R}.
Arguments Prefilter {R}.
Arguments Enabled {R}.

(** [type Filter[R any] struct] *)
Record Filter (R : Type) : Type := MkFilter {
  FName : string;
  fcondition : Criterion R;
  FEnabled : bool
}.
Arguments MkFilter {R}.
Arguments FName {R}.
Arguments fcondition {R}.
Arguments FEnabled {R}.

(** The fields of [PolicyInterpreter] that record processing reads.
    [has_out] tells whether the downstream callback [out] is non-nil. *)
Record PolicyInterpreter (R : Type) : Type := MkPI {
  mode : Mode;
  rules : list (Rule R);
  filters : list (Filter R);
  has_out : bool
}.
Arguments MkPI {R}.
Arguments mode {R}.
Arguments rules {R}.
Arguments filters {R}.
Arguments has_out {R}.

Section Core.
Context {R : Type}.

(** The interpreter uses [condition.Eval(r)] in boolean position; the
    boolean is the first component of the result of [Eval]. *)
Definition holds (c : Criterion R) (r : R) : bool := fst (Eval c r).

(** [func (pi *PolicyInterpreter[R]) EvalFilters(r *R) bool]:
    the range loop with its early [return true]. *)
Fixpoint EvalFilters_loop (fs : list (Filter R)) (r : R) : bool :=
  match fs with
  | [] => false
  | f :: fs' =>
      if FEnabled f && holds (fcondition f) r then true
      else EvalFilters_loop fs' r
  end.

Definition EvalFilters (pi : PolicyInterpreter R) (r : R) : bool :=
  EvalFilters_loop (filters pi) r.

(** The rule loop shared by [Process] and [worker]: every rule is
    visited, [match] is set on each enabled rule whose condition holds,
    and nothing is written to the record. *)
Fixpoint apply_rules (rs : list (Rule R)) (r : R) (matched : bool) : bool :=
  match rs with
  | [] => matched
  | rule :: rs' =>
      if Enabled rule && holds (condition rule) r
      then apply_rules rs' r true
      else apply_rules rs' r matched
  end.

(** [func (pi *PolicyInterpreter[R]) Process(r *R) *R]: [None] is the
    nil pointer, [Some r] the pointer that was passed in. *)
Definition Process (pi : PolicyInterpreter R) (r : R) : option R :=
  if EvalFilters pi r then None
  else
    let matched := Mode_eqb (mode pi) EnrichMode in
    let matched := apply_rules (rules pi) r matched in
    if matched then Some r else None.

(** [func (pi *PolicyInterpreter[R]) worker()]: the records received on
    the worker channel until it is closed, and the records handed to
    the [out] callback, in order. *)
Fixpoint worker (pi : PolicyInterpreter R) (workerCh : list R) : list R :=
  match workerCh with
  | [] => []
  | r :: rest =>
      if EvalFilters pi r then worker pi rest
      else
        let matched := Mode_eqb (mode pi) EnrichMode in
        let matched := apply_rules (rules pi) r matched in
        if matched && has_out pi then r :: worker pi rest
        else worker pi rest
  end.

(** A filter, respectively a rule, applies to a record when it is enabled
    and its condition evaluates to true on the record. *)
Definition filter_matches (f : Filter R) (r : R) : Prop :=
  FEnabled f = true /\ holds (fcondition f) r = true.

Definition rule_matches (rule : Rule R) (r : R) : Prop :=
  Enabled rule = true /\ holds (condition rule) r = true.

End Core.

End Interp.

(** ** Field mapper  (package falco, FieldMapper) *)

Module Mapper.

(** The dynamic values ([interface{}]) that an accessor can return. *)
Inductive any : Type :=
| AInt64 (v : Z)
| AInt32 (v : Z)
| AString (s : string)
| ABool (b : bool)
| AIntArray (p : option (list Z))
| AOther.

(** [strconv.FormatBool] *)
Definition FormatBool (b : bool) : string := if b then "true" else "false".

(** [strconv.FormatInt(v, 10)] *)
Definition FormatInt (v : Z) : string := NilZero.string_of_int (Z.to_int v).

(** The two kinds of [*strconv.NumError]. *)
Inductive NumError : Type := ErrSyntax | ErrRange.

Definition digit_of (c : ascii) : option Z :=
  let n := Z.of_N (N_of_ascii c) in
  if (48 <=? n) && (n <=? 57) then Some (n - 48) else None.

(** The digit loop of [strconv.ParseUint] in base 10: [None] on the first
    byte that is not a decimal digit. *)
Fixpoint digits (s : string) (acc : Z) : option Z :=
  match s with
  | EmptyString => Some acc
  | String c t =>
      match digit_of c with
      | Some d => digits t (acc * 10 + d)
      | None => None
      end
  end.

Definition maxUint64 : Z := 2 ^ 64 - 1.

(** [strconv.ParseUint(s, 10, 64)] *)
Definition ParseUint (s : string) : Z * option NumError :=
  if (s =? EmptyString)%string then (0, Some ErrSyntax)
  else match digits s 0 with
       | None => (0, Some ErrSyntax)
       | Some n => if n >? maxUint64 then (maxUint64, Some ErrRange) else (n, None)
       end.

(** [strconv.ParseInt(s, 10, 64)] *)
Definition ParseInt (s : string) : Z * option NumError :=
  match s with
  | EmptyString => (0, Some ErrSyntax)
  | String c t =>
      let '(neg, s') :=
        if Ascii.eqb c "+" then (false, t)
        else if Ascii.eqb c "-" then (true, t)
        else (false, s) in
      let '(un, err) := ParseUint s' in
      match err with
      | Some ErrSyntax => (0, err)
      | _ =>
          let cutoff := 2 ^ 63 in
          if negb neg && (un >=? cutoff) then (cutoff - 1, Some ErrRange)
          else if neg && (un >? cutoff) then (- cutoff, Some ErrRange)
          else (if neg then - un else un, None)
      end
  end.

(** [func cut(s string, sep string) (before, after string, found bool)].
    As in the source, [after] starts one byte after the match. *)
Definition cut (s sep : string) : string * string * bool :=
  match String.index 0 sep s with
  | None => (EmptyString, EmptyString, false)
  | Some i => (substring 0 i s,
               substring (i + 1) (String.length s - (i + 1)) s, true)
  end.

(** The slice expression [s[:k]] on a string: a run-time panic ([None])
    when [k] is out of range. *)
Definition slice_to (s : string) (k : Z) : option string :=
  if (0 <=? k) && (k <=? Z.of_nat (String.length s))
  then Some (substring 0 (Z.to_nat k) s) else None.

Section WithRecord.

(** The record type of the falco engine and the helpers of the repository
    and of its libraries that the mapper calls. *)
Variable Record : Type.
Variable trimBoundingQuotes : string -> string.
Variable gjsonGet : string -> string -> string.
Variables SF_PROC_TTY SF_PROC_ENTRY : string.

(** [type FieldMap func(r *Record) interface{}] *)
Definition FieldMap : Type := Record -> any.

(** [type FieldEntry struct]: the accessor and its metadata. *)
Record FieldEntry : Type := MkFieldEntry {
  Map_ : FieldMap;
  FlatIndex : Z;
  MType : Z;
  Source : Z;
  Sect : Z;
  AuxAttr : Z
}.

(** [type FieldMapper struct { Mappers map[string]*FieldEntry }] *)
Record FieldMapper : Type := MkFieldMapper {
  Mappers : gmap string FieldEntry
}.

(** [func (m FieldMapper) Map(attr string) FieldMap] *)
Definition Map (m : FieldMapper) (attr : string) : FieldMap :=
  match Mappers m !! attr with
  | Some mapper => Map_ mapper
  | None => fun _ => AString attr
  end.

(** [func (m FieldMapper) MapInt(attr string) IntFieldMap] *)
Definition MapInt (m : FieldMapper) (attr : string) : Record -> Z :=
  fun r =>
    match Map m attr r with
    | AInt64 v => v
    | _ =>
        match ParseInt attr with
        | (v, None) => v
        | (_, Some _) => 0
        end
    end.

(** [func (m FieldMapper) MapIntArray(attr string) IntArrayFieldMap] *)
Definition MapIntArray (m : FieldMapper) (attr : string)
  : Record -> option (list Z) :=
  fun r => match Map m attr r with AIntArray v => v | _ => None end.

(** [func (m FieldMapper) MapStr(attr string) StrFieldMap]; the result is
    [None] when the slice [jsonpath[:len(jsonpath)-1]] panics. *)
Definition MapStr (m : FieldMapper) (attr : string) : Record -> option string :=
  fun r =>
    let '(baseattr, jsonpath, isPathExp) := cut attr "[" in
    let '(baseattr, isPathExp) :=
      if isPathExp
      then (baseattr, bool_decide (is_Some (Mappers m !! baseattr)))
      else (attr, isPathExp) in
    jsonpath ← (if isPathExp
                then slice_to jsonpath (Z.of_nat (String.length jsonpath) - 1)
                else Some jsonpath);
    let o := Map m baseattr r in
    Some match o with
         | AString v =>
             if isPathExp && negb (v =? EmptyString)%string && negb (jsonpath =? EmptyString)%string
             then gjsonGet v jsonpath
             else trimBoundingQuotes v
         | AInt64 v =>
             if (baseattr =? SF_PROC_TTY)%string || (baseattr =? SF_PROC_ENTRY)%string
             then FormatBool (negb (v =? 0))
             else FormatInt v
         | AInt32 v => FormatInt v
         | ABool v => FormatBool v
         | _ => EmptyString
         end.

End WithRecord.

Arguments Map_ {Record}.
Arguments Mappers {Record}.
Arguments MkFieldMapper {Record}.
Arguments MkFieldEntry {Record}.
Arguments Map {Record}.
Arguments MapInt {Record}.
Arguments MapIntArray {Record}.
Arguments MapStr {Record}.

End Mapper.

(** ** Operations vocabulary  (package falco, operations.go) *)

Module Ops.
Import Mapper.

(** [strings.Contains] *)
Definition Contains (s substr : string) : bool :=
  match String.index 0 substr s with Some _ => true | None => false end.

(** [strings.Split(s, sep)] for a non-empty separator: [cur] is the piece
    being read and [skip] counts the bytes of a separator still to pass. *)
Fixpoint Split_from (sep s cur : string) (skip : nat) : list string :=
  match s with
  | EmptyString => [cur]
  | String c t =>
      match skip with
      | S k => Split_from sep t cur k
      | O =>
          if String.prefix sep s
          then cur :: Split_from sep t EmptyString (String.length sep - 1)
          else Split_from sep t (cur +:+ String c EmptyString) 0
      end
  end.

(** With an empty separator [strings.Split] explodes the string; the
    pieces are single bytes here, which agrees with Go on ASCII text. *)
Fixpoint explode (s : string) : list string :=
  match s with
  | EmptyString => []
  | String c t => String c EmptyString :: explode t
  end.

Definition Split (s sep : string) : list string :=
  match sep with
  | EmptyString => explode s
  | _ => Split_from sep s EmptyString 0
  end.

(** [type operator func(string, string) bool] and the members of [ops]
    used below. *)
Definition operator : Type := string -> string -> bool.
Definition ops_eq : operator := fun l r => (l =? r)%string.
Definition ops_contains : operator := fun l r => Contains l r.
Definition ops_startswith : operator := fun l r => String.prefix r l.

(** The inner and the outer range loop of [eval]. *)
Fixpoint eval_rattrs (op : operator) (lattr : string) (rattrs : list string) : bool :=
  match rattrs with
  | [] => false
  | rattr :: rest => if op lattr rattr then true else eval_rattrs op lattr rest
  end.

Fixpoint eval_lattrs (op : operator) (lattrs rattrs : list string) : bool :=
  match lattrs with
  | [] => false
  | lattr :: rest =>
      if eval_rattrs op lattr rattrs then true else eval_lattrs op rest rattrs
  end.

Section WithMapper.

Variable Record : Type.
Variable trimBoundingQuotes : string -> string.
Variable gjsonGet : string -> string -> string.
Variables SF_PROC_TTY SF_PROC_ENTRY : string.
Variable LISTSEP : string.

(** The process-wide [Mapper] instance. *)
Variable TheMapper : FieldMapper Record.

Definition MapStr' : string -> Record -> option string :=
  MapStr trimBoundingQuotes gjsonGet SF_PROC_TTY SF_PROC_ENTRY TheMapper.

(** [func eval(l interface{}, r interface{}, op operator) bool]; both
    operands are strings at every call, so [%v] prints them as they are. *)
Definition eval (l r : string) (op : operator) : bool :=
  let lattrs := Split l LISTSEP in
  let rattrs := Split r LISTSEP in
  eval_lattrs op lattrs rattrs.

(** The predicate closure built by [Eq(lattr, rattr)]. *)
Definition Eq (lattr rattr : string) : Record -> option bool :=
  fun r =>
    l ← MapStr' lattr r;
    x ← MapStr' rattr r;
    Some (eval l x ops_eq).

(** The predicate closure built by [In(attr, list)]: the range loop calls
    the accessor once per element and stops at the first match. *)
Fixpoint In_loop (attr : string) (list : list string) (r : Record) : option bool :=
  match list with
  | [] => Some false
  | v :: rest =>
      l ← MapStr' attr r;
      if eval l v ops_eq then Some true else In_loop attr rest r
  end.

Definition In (attr : string) (list : list string) : Record -> option bool :=
  fun r => In_loop attr list r.

(** The predicate closure built by [PMatch(attr, list)]. *)
Fixpoint PMatch_loop (attr : string) (list : list string) (r : Record) : option bool :=
  match list with
  | [] => Some false
  | v :: rest =>
      l ← MapStr' attr r;
      if eval l v ops_contains then Some true else PMatch_loop attr rest r
  end.

Definition PMatch (attr : string) (list : list string) : Record -> option bool :=
  fun r => PMatch_loop attr list r.

End WithMapper.

End Ops.

(** ** Policy compiler: severity parsing  (package falco, getPriority) *)

Module Compiler.
Import Interp.

(** Modelled from the spec: the falco severity constants [FPriority...]
    are declared outside the files at hand; the spec lists the textual
    severities debug, info, informational, notice, warning, error,
    critical and emergency. *)
Definition FPriorityDebug : string := "debug".
Definition FPriorityInfo : string := "info".
Definition FPriorityInformational : string := "informational".
Definition FPriorityNotice : string := "notice".
Definition FPriorityWarning : string := "warning".
Definition FPriorityError : string := "error".
Definition FPriorityCritical : string := "critical".
Definition FPriorityEmergency : string := "emergency".

(** [strings.ToLower] on the bytes of an ASCII text: the letters A to Z
    are moved to a to z, every other byte is kept. *)
Definition lower_ascii (c : ascii) : ascii :=
  let n := N_of_ascii c in
  if ((65 <=? n) && (n <=? 90))%N then ascii_of_N (n + 32) else c.

Fixpoint ToLower (s : string) : string :=
  match s with
  | EmptyString => EmptyString
  | String c t => String (lower_ascii c) (ToLower t)
  end.

Definition newline : string := String (ascii_of_nat 10) EmptyString.

(** The line written to [logger.Warn] for an unknown severity. *)
Definition unrecognized (p : string) : string :=
  "Unrecognized priority value " +:+ p +:+ ". Deferring to "
  +:+ Priority_String Low +:+ newline.

(** [func (pi *PolicyInterpreter[R]) getPriority(ctx) engine.Priority].
    The argument is the text of [ctx.Severity(0)], [None] when the rule
    has no severity clause; the second component of the result is what
    the call writes to the warning log. *)
Definition getPriority (severity : option string) : Priority * list string :=
  match severity with
  | Some p =>
      let s := ToLower p in
      if (s =? Priority_String Low)%string then (Low, [])
      else if (s =? Priority_String Medium)%string then (Medium, [])
      else if (s =? Priority_String High)%string then (High, [])
      else if (s =? FPriorityDebug)%string then (Low, [])
      else if (s =? FPriorityInfo)%string then (Low, [])
      else if (s =? FPriorityInformational)%string then (Low, [])
      else if (s =? FPriorityNotice)%string then (Low, [])
      else if (s =? FPriorityWarning)%string then (Medium, [])
      else if (s =? FPriorityError)%string then (High, [])
      else if (s =? FPriorityCritical)%string then (High, [])
      else if (s =? FPriorityEmergency)%string then (High, [])
      else (Low, [unrecognized p])
  | None => (Low, [])
  end.

End Compiler.

(** ** Log stream tailer  (package logstream) *)

Module Tailer.

Definition byte : Type := Byte.byte.

(** A byte as an unsigned number, and the Go conversion [byte(x)]. *)
Definition bz (b : byte) : Z := Z.of_N (Byte.to_N b).
Definition zb (z : Z) : byte :=
  match Byte.of_N (Z.to_N (z mod 256)) with
  | Some b => b
  | None => Byte.x00
  end.

Definition rune : Type := Z.

(** Constants of package [unicode/utf8]. *)
Definition RuneError : rune := 0xFFFD.
Definition RuneSelf : Z := 0x80.
Definition MaxRune : Z := 0x10FFFF.
Definition surrogateMin : Z := 0xD800.
Definition surrogateMax : Z := 0xDFFF.
Definition maskx : Z := 0x3F.
Definition mask2 : Z := 0x1F.
Definition mask3 : Z := 0x0F.
Definition mask4 : Z := 0x07.
Definition locb : Z := 0x80.
Definition hicb : Z := 0xBF.
Definition tx : Z := 0x80.
Definition t2 : Z := 0xC0.
Definition t3 : Z := 0xE0.
Definition t4 : Z := 0xF0.

(** What the table [first] of package [utf8] says about a leading byte:
    ASCII, invalid, or the length of the sequence together with the range
    accepted for its second byte. *)
Inductive first_info : Type :=
| FAscii
| FInvalid
| FMulti (size : nat) (lo hi : Z).

Definition first (p0 : Z) : first_info :=
  if p0 <? 0x80 then FAscii
  else if p0 <? 0xC2 then FInvalid
  else if p0 <? 0xE0 then FMulti 2 locb hicb
  else if p0 =? 0xE0 then FMulti 3 0xA0 hicb
  else if p0 <? 0xED then FMulti 3 locb hicb
  else if p0 =? 0xED then FMulti 3 locb 0x9F
  else if p0 <? 0xF0 then FMulti 3 locb hicb
  else if p0 =? 0xF0 then FMulti 4 0x90 hicb
  else if p0 <? 0xF4 then FMulti 4 locb hicb
  else if p0 =? 0xF4 then FMulti 4 locb 0x8F
  else FInvalid.

(** [utf8.DecodeRune(p)]: the rune and its width in bytes; an invalid or
    truncated sequence gives [(RuneError, 1)], an empty slice
    [(RuneError, 0)]. *)
Definition DecodeRune (p : list byte) : rune * nat :=
  match p with
  | [] => (RuneError, 0%nat)
  | p0 :: rest =>
      match first (bz p0) with
      | FAscii => (bz p0, 1%nat)
      | FInvalid => (RuneError, 1%nat)
      | FMulti sz lo hi =>
          if (length p <? sz)%nat then (RuneError, 1%nat)
          else
            match rest with
            | [] => (RuneError, 1%nat)
            | b1 :: rest1 =>
                if (bz b1 <? lo) || (hi <? bz b1) then (RuneError, 1%nat)
                else if (sz <=? 2)%nat
                then (Z.lor (Z.shiftl (Z.land (bz p0) mask2) 6)
                            (Z.land (bz b1) maskx), 2%nat)
                else
                  match rest1 with
                  | [] => (RuneError, 1%nat)
                  | b2 :: rest2 =>
                      if (bz b2 <? locb) || (hicb <? bz b2) then (RuneError, 1%nat)
                      else if (sz <=? 3)%nat
                      then (Z.lor (Z.lor (Z.shiftl (Z.land (bz p0) mask3) 12)
                                         (Z.shiftl (Z.land (bz b1) maskx) 6))
                                  (Z.land (bz b2) maskx), 3%nat)
                      else
                        match rest2 with
                        | [] => (RuneError, 1%nat)
                        | b3 :: _ =>
                            if (bz b3 <? locb) || (hicb <? bz b3)
                            then (RuneError, 1%nat)
                            else (Z.lor (Z.lor (Z.lor
                                    (Z.shiftl (Z.land (bz p0) mask4) 18)
                                    (Z.shiftl (Z.land (bz b1) maskx) 12))
                                    (Z.shiftl (Z.land (bz b2) maskx) 6))
                                    (Z.land (bz b3) maskx), 4%nat)
                        end
                  end
            end
      end
  end.

(** [utf8.AppendRune(p, r)] *)
Definition AppendRune (p : list byte) (r : rune) : list byte :=
  let i := r mod 2 ^ 32 in
  if i <=? 0x7F then p ++ [zb r]
  else if i <=? 0x7FF
  then p ++ [zb (Z.lor t2 (bz (zb (Z.shiftr r 6))));
             zb (Z.lor tx (Z.land (bz (zb r)) maskx))]
  else
    let three (r : rune) :=
      p ++ [zb (Z.lor t3 (bz (zb (Z.shiftr r 12))));
            zb (Z.lor tx (Z.land (bz (zb (Z.shiftr r 6))) maskx));
            zb (Z.lor tx (Z.land (bz (zb r)) maskx))] in
    if (MaxRune <? i) || ((surrogateMin <=? i) && (i <=? surrogateMax))
    then three RuneError
    else if i <=? 0xFFFF then three r
    else p ++ [zb (Z.lor t4 (bz (zb (Z.shiftr r 18))));
               zb (Z.lor tx (Z.land (bz (zb (Z.shiftr r 12))) maskx));
               zb (Z.lor tx (Z.land (bz (zb (Z.shiftr r 6))) maskx));
               zb (Z.lor tx (Z.land (bz (zb r)) maskx))].

(** [func (b *Buffer) WriteRune(r rune)] on the contents of the buffer. *)
Definition WriteRune (buf : list byte) (r : rune) : list byte :=
  if r mod 2 ^ 32 <? RuneSelf then buf ++ [zb r] else AppendRune buf r.

(** [type LogLine struct]: the file name and the text of the line up to
    the newline (the context field is not represented). *)
Record LogLine : Type := New { Filename : string; Line : string }.

(** What a stream shares with the rest of the program: the sends made on
    the [lines] channel (oldest first), the [log_lines_total] counters,
    and the two fields of [fileStream] behind its mutex. *)
Record World : Type := MkWorld {
  lines : list LogLine;
  logLines : gmap string Z;
  lastReadTime : Z;
  completed : bool
}.

(** [func sendLine(ctx, pathname, partial, lines)]: count the line, send
    it, reset the buffer. *)
Definition sendLine (pathname : string) (st : World * list byte) : World * list byte :=
  let '(w, partial) := st in
  ({| lines := lines w ++ [New pathname (string_of_list_byte partial)];
      logLines := <[pathname := default 0 (logLines w !! pathname) + 1]> (logLines w);
      lastReadTime := lastReadTime w;
      completed := completed w |}, []).

(** The body of the [switch] of [decodeAndSend] for one decoded rune. *)
Definition on_rune (pathname : string) (st : World * list byte) (r : rune)
  : World * list byte :=
  if r =? 13 then st
  else if r =? 10 then sendLine pathname st
  else (fst st, WriteRune (snd st) r).

(** The [for] loop of [decodeAndSend], [i] being the loop index.  The
    loop runs while [i < len(b) && i < n]; [fuel] bounds the number of
    passes and [None] means that it ran out. *)
Fixpoint decode_loop (fuel : nat) (pathname : string) (n : Z) (b : list byte)
  (i : nat) (st : World * list byte) {struct fuel} : option (World * list byte) :=
  if (i <? length b)%nat && (Z.of_nat i <? n)
  then
    match fuel with
    | O => None
    | S fuel' =>
        let '(r, width) := DecodeRune (drop i b) in
        decode_loop fuel' pathname n b (i + width) (on_rune pathname st r)
    end
  else Some st.

(** [func decodeAndSend(ctx, lines, pathname, n, b, partial)] *)
Definition decodeAndSend (pathname : string) (n : Z) (b : list byte)
  (st : World * list byte) : option (World * list byte) :=
  decode_loop (length b) pathname n b 0 st.

(** The runes of a byte slice, in order: [DecodeRune] applied at the
    start and then again after each decoded width.  [skip] counts the
    bytes that still belong to the rune decoded last. *)
Fixpoint runes_from (skip : nat) (b : list byte) : list rune :=
  match b with
  | [] => []
  | _ :: rest =>
      match skip with
      | S k => runes_from k rest
      | O => let '(r, width) := DecodeRune b in r :: runes_from (width - 1) rest
      end
  end.

Definition runes (b : list byte) : list rune := runes_from 0 b.

(** A byte of plain text: ASCII, and neither a carriage return nor a
    newline. *)
Definition plain (x : byte) : Prop := bz x < 0x80 /\ bz x <> 13 /\ bz x <> 10.

(** The number of newline runes in a list of runes. *)
Definition newlines (rs : list rune) : nat :=
  length (filter (fun r => r = 10) rs).

(** *** The goroutine of [fileStream.stream] *)

(** The part of [os.FileInfo] that the stream looks at: the identity of
    the file, compared by [os.SameFile], and its size. *)
Record FileInfo : Type := MkFileInfo { file_id : Z; fsize : Z }.

Definition SameFile (a b : FileInfo) : bool := file_id a =? file_id b.

(** The error returned by [fd.Read]. *)
Inductive ReadError : Type := RNil | REOF | RESTALE | ROther.

(** The outcome of [os.Stat(fs.pathname)]. *)
Inductive StatResult : Type :=
| StatNotExist
| StatFailed
| StatOk (newfi : FileInfo).

(** The answers of the environment during one pass through the loop body:
    the read buffer and the count and error of [fd.Read], the result of
    [os.Stat], of [fd.Seek(0, io.SeekCurrent)], whether the context is
    cancelled, whether [stopChan] is closed, whether a nested
    [os.OpenFile] succeeds, and the clock. *)
Record Env : Type := MkEnv {
  rd_buf : list byte;
  rd_count : nat;
  rd_err : ReadError;
  stat : StatResult;
  seek_cur : option Z;
  ctx_cancelled : bool;
  stop_closed : bool;
  open_ok : bool;
  now : Z
}.

(** The variables captured by the goroutine: the file it was opened on,
    its partial-line buffer and its byte count. *)
Record Goroutine : Type := MkGoroutine {
  fi : FileInfo;
  partial : list byte;
  total : Z
}.

(** How one pass through the loop body ends: back to the top of the loop
    (directly or after the wait), or [return], possibly having started
    another goroutine through a nested call of [fs.stream]. *)
Inductive Next : Type :=
| Loop (g : Goroutine)
| Exit (spawned : option Goroutine).

(** The goroutine that a call [fs.stream(ctx, wg, waker, fi, true)] on the
    same [fileStream] starts when the file can be opened: a fresh empty
    partial buffer and a zero byte count. *)
Definition spawn (e : Env) (fi' : FileInfo) : option Goroutine :=
  if open_ok e then Some {| fi := fi'; partial := []; total := 0 |} else None.

(** [if partial.Len() > 0 { sendLine(...) }] *)
Definition flush (pathname : string) (st : World * list byte) : World * list byte :=
  if (0 <? length (snd st))%nat then sendLine pathname st else st.

Definition set_completed (w : World) : World :=
  {| lines := lines w; logLines := logLines w;
     lastReadTime := lastReadTime w; completed := true |}.

Definition set_lastReadTime (w : World) (t : Z) : World :=
  {| lines := lines w; logLines := logLines w;
     lastReadTime := t; completed := completed w |}.

(** The code from the label [Sleep] on: the non-blocking [select] that
    ends the stream when it has been stopped or cancelled, then the wait
    for the next wake-up. *)
Definition sleep (pathname : string) (e : Env) (g : Goroutine)
  (st : World * list byte) : World * Next :=
  let eof_or_cancelled :=
    match rd_err e with REOF => true | _ => ctx_cancelled e end in
  if eof_or_cancelled && (stop_closed e || ctx_cancelled e)
  then
    let '(w, _) := flush pathname st in
    (set_completed w, Exit None)
  else (fst st, Loop {| fi := fi g; partial := snd st; total := total g |}).

(** One pass through the body of the [for] loop of the goroutine. *)
Definition iteration (pathname : string) (e : Env) (w : World) (g : Goroutine)
  : World * Next :=
  let count := rd_count e in
  (* if count > 0 { ... } *)
  let '(w, part, g) :=
    if (0 <? count)%nat
    then
      let st := default (w, partial g)
                  (decodeAndSend pathname (Z.of_nat count)
                     (take count (rd_buf e)) (w, partial g)) in
      (set_lastReadTime (fst st) (now e), snd st,
       {| fi := fi g; partial := snd st; total := total g + Z.of_nat count |})
    else (w, partial g, g) in
  let back := Loop {| fi := fi g; partial := part; total := total g |} in
  match rd_err e with
  | RESTALE => (w, Exit (spawn e (fi g)))
  | _ =>
      let at_eof := match rd_err e with REOF => (count =? 0)%nat | _ => false end in
      let after_checks (w : World) (part : list byte) : World * Next :=
        match rd_err e with
        | RNil =>
            if negb (ctx_cancelled e)
            then (w, Loop {| fi := fi g; partial := part; total := total g |})
            else sleep pathname e g (w, part)
        | _ => sleep pathname e g (w, part)
        end in
      if at_eof
      then
        match stat e with
        | StatNotExist =>
            let '(w, _) := flush pathname (w, part) in
            (set_completed w, Exit None)
        | StatFailed => sleep pathname e g (w, part)
        | StatOk newfi =>
            if negb (SameFile (fi g) newfi)
            then (w, Exit (spawn e newfi))
            else
              match seek_cur e with
              | None => (w, back)
              | Some currentOffset =>
                  if fsize newfi <? currentOffset
                  then
                    let '(w, part) := flush pathname (w, part) in
                    (w, Loop {| fi := fi g; partial := part; total := total g |})
                  else after_checks w part
              end
        end
      else after_checks w part
  end.

(** [func (fs *fileStream) IsComplete() bool] *)
Definition IsComplete (w : World) : bool := completed w.

(** The goroutines that run on behalf of one [fileStream], and the state
    they share. *)
Record System : Type := MkSystem {
  world : World;
  running : list Goroutine
}.

(** One pass of the [k]-th goroutine under the answers [e]. *)
Definition run_pass (pathname : string) (k : nat) (e : Env) (s : System)
  : option System :=
  g ← running s !! k;
  let '(w, nxt) := iteration pathname e (world s) g in
  Some {| world := w;
          running := match nxt with
                     | Loop g' => <[k := g']> (running s)
                     | Exit None => delete k (running s)
                     | Exit (Some g') => delete k (running s) ++ [g']
                     end |}.

(** The runs of the system: any goroutine may make a pass at any time. *)
Inductive step (pathname : string) : System -> System -> Prop :=
| step_pass k e s s' : run_pass pathname k e s = Some s' -> step pathname s s'.

Inductive steps (pathname : string) : System -> System -> Prop :=
| steps_refl s : steps pathname s s
| steps_cons s1 s2 s3 :
    step pathname s1 s2 -> steps pathname s2 s3 -> steps pathname s1 s3.

End Tailer.

(** ** A concrete record type and a fragment of the mapper table *)

Module Falco.
Import Predicate Interp Mapper.

(** What a matched rule leaves on a record: name, tags, priority and
    actions. *)
Record RuleMeta : Type := MkRuleMeta {
  rm_name : string;
  rm_tags : list EnrichmentTag;
  rm_priority : Priority;
  rm_actions : list string
}.

(** Modelled from the spec: the record type is declared outside the files
    at hand.  The spec describes a record as numerically indexed columns
    of int64 and string values per source, together with a mutable
    context holding a set of tags, the matched rules and an alert flag. *)
Record Context : Type := MkContext {
  Alert : bool;
  CtxRules : list RuleMeta;
  CtxTags : list string
}.

Record Record_ : Type := MkRecord {
  ints : Z -> Z -> Z;
  strs : Z -> Z -> string;
  Ctx : Context
}.

(** [r.GetInt(attr, src)] and [r.GetStr(attr, src)] *)
Definition GetInt (r : Record_) (attr src : Z) : Z := ints r src attr.
Definition GetStr (r : Record_) (attr src : Z) : string := strs r src attr.

(** [func mapStr(src, attr) FieldMap] and [func mapInt(src, attr) FieldMap] *)
Definition mapStr (src attr : Z) : FieldMap Record_ :=
  fun r => AString (GetStr r attr src).
Definition mapInt (src attr : Z) : FieldMap Record_ :=
  fun r => AInt64 (GetInt r attr src).

(** Column identifiers of the record library; only that they differ
    matters here. *)
Definition SYSFLOW_SRC : Z := 0.
Definition PROC_OID_HPID_INT : Z := 8.
Definition PROC_EXE_STR : Z := 3.
Definition PROC_TTY_INT : Z := 12.

(** Modelled from the spec: the attribute-name constants are declared
    outside the files at hand; the spec names the attributes
    [sf.proc.pid], [sf.proc.exe], [sf.proc.tty] and [sf.proc.entry]. *)
Definition SF_PROC_PID : string := "sf.proc.pid".
Definition SF_PROC_EXE : string := "sf.proc.exe".
Definition SF_PROC_TTY : string := "sf.proc.tty".
Definition SF_PROC_ENTRY : string := "sf.proc.entry".

(** Modelled from the spec: the list separator constant [LISTSEP] is
    declared outside the files at hand; the spec shows list-valued
    attributes joined as [a,b,c]. *)
Definition LISTSEP : string := ",".

Definition is_quote (c : ascii) : bool :=
  Ascii.eqb c (ascii_of_nat 34) || Ascii.eqb c (ascii_of_nat 39).

Fixpoint drop_last_quote (s : string) : string :=
  match s with
  | EmptyString => EmptyString
  | String c EmptyString => if is_quote c then EmptyString else s
  | String c t => String c (drop_last_quote t)
  end.

(** Modelled from the spec: the helper [trimBoundingQuotes] is declared
    outside the files at hand; the spec says that surrounding quotes are
    stripped.  A leading and a trailing quote character, single or
    double, are removed. *)
Definition trimBoundingQuotes (s : string) : string :=
  let s := match s with
           | String c t => if is_quote c then t else s
           | EmptyString => s
           end in
  drop_last_quote s.

(** The JSON library is not modelled: no statement below evaluates a JSON
    path, and the lookup of a path is taken to find nothing. *)
Definition gjsonGet (json path : string) : string := EmptyString.

(** Three entries of [getExportedMappers]. *)
Definition entry (f : FieldMap Record_) (idx : Z) : FieldEntry Record_ :=
  MkFieldEntry f idx 0 SYSFLOW_SRC 1 0.

Definition TheMapper : FieldMapper Record_ :=
  MkFieldMapper
    (<[SF_PROC_PID := entry (mapInt SYSFLOW_SRC PROC_OID_HPID_INT) PROC_OID_HPID_INT]>
     (<[SF_PROC_EXE := entry (mapStr SYSFLOW_SRC PROC_EXE_STR) PROC_EXE_STR]>
      (<[SF_PROC_TTY := entry (mapInt SYSFLOW_SRC PROC_TTY_INT) PROC_TTY_INT]> ∅))).

(** The views [Mapper.MapStr], [Eq] and [In] over this table. *)
Definition Mapper_MapStr (attr : string) : Record_ -> option string :=
  Mapper.MapStr trimBoundingQuotes gjsonGet SF_PROC_TTY SF_PROC_ENTRY TheMapper attr.

Definition Ops_Eq : string -> string -> Record_ -> option bool :=
  Ops.Eq Record_ trimBoundingQuotes gjsonGet SF_PROC_TTY SF_PROC_ENTRY LISTSEP TheMapper.

Definition Ops_In : string -> list string -> Record_ -> option bool :=
  Ops.In Record_ trimBoundingQuotes gjsonGet SF_PROC_TTY SF_PROC_ENTRY LISTSEP TheMapper.

(** A process event of pid 42 running [/usr/bin/bash], with an empty
    context. *)
Definition empty_ctx : Context :=
  {| Alert := false; CtxRules := []; CtxTags := [] |}.

Definition bash_event : Record_ :=
  {| ints := fun src attr =>
       if (src =? SYSFLOW_SRC) && (attr =? PROC_OID_HPID_INT) then 42 else 0;
     strs := fun src attr =>
       if (src =? SYSFLOW_SRC) && (attr =? PROC_EXE_STR) then "/usr/bin/bash" else EmptyString;
     Ctx := empty_ctx |}.

(** An interpreter in alert mode whose only rule is enabled and always
    matches. *)
Definition always_rule : Rule Record_ :=
  MkRule "proc-exec" "any process event" True_ ["log"] ["exec"] Medium [] true.

Definition alert_interpreter : PolicyInterpreter Record_ :=
  MkPI AlertMode [always_rule] [] true.

End Falco.

(** ** Sample predicates, interpreters and streams *)

Module Samples.
Import Predicate Interp Tailer.

(** A predicate over the one-element record type that holds while
    reporting an error. *)
Definition failing_true : Criterion unit :=
  MkCriterion (fun _ => (true, Some "decode")).

(** An interpreter with one enabled filter and one enabled rule over
    numbers: the filter drops zero, the rule matches the numbers above
    ten. *)
Definition drop_zero : Filter Z :=
  MkFilter "drop-zero" (MkCriterion (fun n => (n =? 0, None))) true.

Definition above_ten : Rule Z :=
  MkRule "above-ten" "numbers above ten"
    (MkCriterion (fun n => (10 <? n, None))) [] [] Low [] true.

Definition sample_interpreter (m : Mode) : PolicyInterpreter Z :=
  MkPI m [above_ten] [drop_zero] true.

(** A stream on [a.log] that has sent nothing yet. *)
Definition fresh_world : World := MkWorld [] ∅ 0 false.

(** The bytes [ab\r\n] followed by a two-byte rune, a newline and a rune
    cut short after two of its three bytes. *)
Definition sample_bytes : list byte :=
  [Byte.x61; Byte.x62; Byte.x0d; Byte.x0a; Byte.xc3; Byte.xa9; Byte.x0a;
   Byte.xe2; Byte.x82].

(** A stream whose only goroutine follows file 1 and holds the
    unterminated text [x]; the file is then rotated away (the path names
    file 2), and later the stream is stopped. *)
Definition old_file : FileInfo := MkFileInfo 1 1.
Definition new_file : FileInfo := MkFileInfo 2 0.

Definition before_rotation : System :=
  MkSystem fresh_world [MkGoroutine old_file [Byte.x78] 1].

Definition rotation_seen : Env :=
  MkEnv [] 0 REOF (StatOk new_file) (Some 1) false false true 1.

Definition stop_requested : Env :=
  MkEnv [] 0 REOF (StatOk new_file) (Some 0) false true true 2.

Definition after_rotation : System :=
  MkSystem fresh_world [MkGoroutine new_file [] 0].

Definition after_stop : System :=
  MkSystem (MkWorld [] ∅ 0 true) [].

End Samples.

(** ** More of the operations vocabulary and of the mapper *)

Module OpsExt.
Import Mapper Ops.

(** [strings.Join(elems, sep)] *)
Fixpoint Join (elems : list string) (sep : string) : string :=
  match elems with
  | [] => EmptyString
  | x :: rest =>
      match rest with
      | [] => x
      | _ => x +:+ sep +:+ Join rest sep
      end
  end.

(** The suffix [s[k:]] of a string (the whole suffix is empty when [k]
    exceeds the length). *)
Fixpoint string_drop (k : nat) (s : string) : string :=
  match k, s with
  | O, _ => s
  | S k', String _ t => string_drop k' t
  | S _, EmptyString => EmptyString
  end.

(** The values of type [int64]. *)
Definition int64 (z : Z) : Prop := - 2 ^ 63 <= z < 2 ^ 63.

Section WithMapper.

Variable Record : Type.
Variable trimBoundingQuotes : string -> string.
Variable gjsonGet : string -> string -> string.
Variables SF_PROC_TTY SF_PROC_ENTRY : string.
Variable LISTSEP : string.
Variable TheMapper : FieldMapper Record.

(** The predicate closures built by [Ge(lattr, rattr)] and
    [Gt(lattr, rattr)]. *)
Definition Ge (lattr rattr : string) : Record -> bool :=
  fun r => MapInt TheMapper lattr r >=? MapInt TheMapper rattr r.

Definition Gt (lattr rattr : string) : Record -> bool :=
  fun r => MapInt TheMapper lattr r >? MapInt TheMapper rattr r.

(** The predicate closures built by [StartsWith(lattr, rattr)] and
    [Contains(lattr, rattr)]. *)
Definition StartsWith (lattr rattr : string) : Record -> option bool :=
  fun r =>
    l ← MapStr' Record trimBoundingQuotes gjsonGet SF_PROC_TTY SF_PROC_ENTRY TheMapper lattr r;
    x ← MapStr' Record trimBoundingQuotes gjsonGet SF_PROC_TTY SF_PROC_ENTRY TheMapper rattr r;
    Some (eval LISTSEP l x ops_startswith).

Definition Contains_ (lattr rattr : string) : Record -> option bool :=
  fun r =>
    l ← MapStr' Record trimBoundingQuotes gjsonGet SF_PROC_TTY SF_PROC_ENTRY TheMapper lattr r;
    x ← MapStr' Record trimBoundingQuotes gjsonGet SF_PROC_TTY SF_PROC_ENTRY TheMapper rattr r;
    Some (eval LISTSEP l x ops_contains).

End WithMapper.

End OpsExt.

Module FalcoExt.
Import Mapper Ops OpsExt Falco.

(** [func mapPort(src, attrs...) FieldMap]: the decimal forms of the
    columns, joined by the list separator. *)
Definition mapPort (src : Z) (attrs : list Z) : FieldMap Record_ :=
  fun r =>
    let ports := map (fun attr => FormatInt (GetInt r attr src)) attrs in
    AString (Join ports LISTSEP).

(** Column identifiers of the two ports of a network flow. *)
Definition FL_NETW_SPORT_INT : Z := 40.
Definition FL_NETW_DPORT_INT : Z := 42.

(** A network flow from port 40000 to port 53. *)
Definition dns_flow : Record_ :=
  {| ints := fun src attr =>
       if (src =? SYSFLOW_SRC) && (attr =? FL_NETW_SPORT_INT) then 40000
       else if (src =? SYSFLOW_SRC) && (attr =? FL_NETW_DPORT_INT) then 53
       else 0;
     strs := fun _ _ => EmptyString;
     Ctx := empty_ctx |}.

Definition Ops_Gt : string -> string -> Record_ -> bool :=
  OpsExt.Gt Record_ TheMapper.

Definition Ops_Ge : string -> string -> Record_ -> bool :=
  OpsExt.Ge Record_ TheMapper.

End FalcoExt.

(** ** More of the policy compiler, the mapper table and the hash table *)

Module CompilerExt.
Import Compiler.

(** [strconv.ParseBool]: [None] for a text that is not one of the twelve
    accepted spellings. *)
Definition ParseBool (str : string) : option bool :=
  if existsb (String.eqb str) ["1"; "t"; "T"; "TRUE"; "true"; "True"] then Some true
  else if existsb (String.eqb str) ["0"; "f"; "F"; "FALSE"; "false"; "False"]
  then Some false
  else None.

Section WithHelpers.

Variable trimBoundingQuotes : string -> string.

(** [func (pi *PolicyInterpreter[R]) getEnabledFlag(ctx) bool]: the
    argument is the text of the clause, the second component of the
    result is what the call writes to the warning log. *)
Definition getEnabledFlag (text : string) : bool * list string :=
  let flag := trimBoundingQuotes text in
  match ParseBool flag with
  | Some b => (b, [])
  | None => (true, ["Unrecognized enabled flag:  " +:+ flag +:+ newline])
  end.

(** The field [Enabled] of a filter or rule as [ExitPfilter] and
    [ExitPrule] compute it: [ctx.ENABLED() == nil || getEnabledFlag(...)];
    [None] is a filter or rule without [enabled] clause. *)
Definition enabled_of (clause : option string) : bool * list string :=
  match clause with
  | None => (true, [])
  | Some text => getEnabledFlag text
  end.

(** [func (pi *PolicyInterpreter[R]) reduceList(sl string) []string]:
    [lists] is the table [pi.lists]; [fuel] bounds the depth of the
    recursion and [None] means that it ran out. *)
Fixpoint reduceList (fuel : nat) (lists : gmap string (list string)) (sl : string)
  : option (list string) :=
  match fuel with
  | O => None
  | S fuel' =>
      match lists !! sl with
      | Some l => @concat string <$> mapM (reduceList fuel' lists) l
      | None => Some [trimBoundingQuotes sl]
      end
  end.

(** [func (pi *PolicyInterpreter[R]) extractListFromAtoms(ctxs) []string],
    on the texts of the atoms. *)
Definition extractListFromAtoms (fuel : nat) (lists : gmap string (list string))
  (atoms : list string) : option (list string) :=
  @concat string <$> mapM (reduceList fuel lists) atoms.

End WithHelpers.

End CompilerExt.

Module MapperExt.

(** The loop of [getMappers]: the non-exported entries, in the order in
    which the range over the map yields them, are added to the exported
    table unless their key is already there, in which case a warning is
    logged.  The result is the table and the keys warned about. *)
Fixpoint getMappers_loop {V : Type} (mappers : gmap string V)
  (nonexported : list (string * V)) : gmap string V * list string :=
  match nonexported with
  | [] => (mappers, [])
  | (k, v) :: rest =>
      match mappers !! k with
      | None => getMappers_loop (<[k := v]> mappers) rest
      | Some _ =>
          let '(m, warned) := getMappers_loop mappers rest in (m, k :: warned)
      end
  end.

End MapperExt.

Module HashAction.

(** The body of the loop of [createHashMap]:
    [if len(line) == 2 { m[line[1]] = line[0] }]. *)
Definition add_row (m : gmap string string) (line : list string) : gmap string string :=
  match line with
  | [h; p] => <[p := h]> m
  | _ => m
  end.

(** [func createHashMap() map[string]string] on the rows read from the
    CSV file: of a row of two fields, the second is the key and the first
    the value. *)
Definition createHashMap (data : list (list string)) : gmap string string :=
  fold_left add_row data ∅.

End HashAction.

(** ** What a run of a stream adds to the channel *)

Module TailerExt.
Import Tailer.

(** A byte sequence without newline and carriage return. *)
Definition clean (b : list byte) : Prop :=
  Forall (fun x => bz x <> 10 /\ bz x <> 13) b.

(** [extends pathname w w' new]: from [w] to [w'] the lines [new] have
    been sent, all for [pathname], the line counter of [pathname] has
    grown by their number, and the completed flag has not been reset. *)
Definition extends (pathname : string) (w w' : World) (new : list LogLine) : Prop :=
  lines w' = lines w ++ new
  /\ Forall (fun l => Filename l = pathname) new
  /\ default 0 (logLines w' !! pathname)
     = default 0 (logLines w !! pathname) + Z.of_nat (length new)
  /\ (completed w = true -> completed w' = true).

(** The bytes of exactly one encoded rune: [DecodeRune] accepts the
    sequence and consumes all of it. *)
Definition well_formed (q : list byte) : bool :=
  match q with
  | [] => false
  | [x] => bz x <? RuneSelf
  | _ => (snd (DecodeRune q) =? length q)%nat
  end.

(** A line whose text holds neither a newline nor a carriage return. *)
Definition clean_line (l : LogLine) : Prop :=
  clean (list_byte_of_string (Line l)).

End TailerExt.

(** ** Further samples *)

Module MoreSamples.
Import Predicate Interp.

(** Conditions in the shape the compiler gives them: the disjunction
    [Any] of a slice of conjunctions [All]. *)
Definition is_zero : Criterion Z := MkCriterion (fun n => (n =? 0, None)).
Definition is_big : Criterion Z := MkCriterion (fun n => (10 <? n, None)).

Definition compiled_filter : Filter Z :=
  MkFilter "drop-zero" (Any [All [is_zero]]) true.

Definition compiled_rule : Rule Z :=
  MkRule "big" "zero or big" (Any [All [is_zero]; All [is_big; True_]])
    [] [] High [] true.

Definition compiled_interpreter (m : Mode) : PolicyInterpreter Z :=
  MkPI m [compiled_rule] [compiled_filter] true.

(** A table of lists in which [bins] names the list [shell_binaries],
    with the depth of each name, and a table whose list names itself. *)
Definition nested_lists : gmap string (list string) :=
  <["bins" := ["shell_binaries"; "ls"]]>
    (<["shell_binaries" := ["bash"; "sh"]]> ∅).

Definition list_rank (name : string) : nat :=
  if (name =? "bins")%string then 2
  else if (name =? "shell_binaries")%string then 1
  else 0.

Definition looping_lists : gmap string (list string) :=
  <["a" := ["a"; "b"]]> ∅.

(** A read that returns the nine bytes of [sample_bytes] without error,
    and a later read at end of file, the file unchanged, after the stream
    has been stopped. *)
Definition data_read : Tailer.Env :=
  Tailer.MkEnv Samples.sample_bytes 9 Tailer.RNil Tailer.StatFailed None
    false false true 5.

Definition stop_at_eof : Tailer.Env :=
  Tailer.MkEnv [] 0 Tailer.REOF (Tailer.StatOk Samples.old_file) (Some 1)
    false true true 6.

(** The stream of [Samples.before_rotation] after these two reads. *)
Definition after_reading : option Tailer.System :=
  match Tailer.run_pass "a.log" 0 data_read Samples.before_rotation with
  | Some s1 => Tailer.run_pass "a.log" 0 stop_at_eof s1
  | None => None
  end.

End MoreSamples.

(** * Properties *)

(** ** Predicate algebra *)

Module PredicateFacts.
Import Predicate Samples.

Section Laws.
Context {R : Type}.
Implicit Types (c cr : Criterion R) (r : R).

(** When the receiver reports no error, [And] returns [false] and a nil
    error whatever the two predicates say. *)
Lemma And_without_error c cr r :
  snd (Eval c r) = None -> Eval (And c cr) r = (false, None).
Proof.
  unfold And, Eval; simpl. destruct (Pred c r) as [b [e|]]; simpl; intros H;
    [discriminate H | reflexivity].
Qed.

(** When the receiver reports an error, [And] returns the receiver's own
    boolean and error: the argument plays no part. *)
Lemma And_with_error c cr r b e :
  Eval c r = (b, Some e) -> Eval (And c cr) r = (b, Some e).
Proof.
  unfold And, Eval; simpl. intros ->. now rewrite andb_diag.
Qed.

(** The argument of [And] is never evaluated. *)
Lemma And_ignores_argument c cr cr' r :
  Eval (And c cr) r = Eval (And c cr') r.
Proof. reflexivity. Qed.

Lemma Or_without_error c cr r :
  snd (Eval c r) = None -> Eval (Or c cr) r = (false, None).
Proof.
  unfold Or, Eval; simpl. destruct (Pred c r) as [b [e|]]; simpl; intros H;
    [discriminate H | reflexivity].
Qed.

(** [Not] negates only when the receiver reports an error. *)
Lemma Not_without_error c r :
  snd (Eval c r) = None -> Eval (Not c) r = (false, None).
Proof.
  unfold Not, Eval; simpl. destruct (Pred c r) as [b [e|]]; simpl; intros H;
    [discriminate H | reflexivity].
Qed.

Lemma Not_with_error c r b e :
  Eval c r = (b, Some e) -> Eval (Not c) r = (negb b, Some e).
Proof. unfold Not, Eval; simpl. now intros ->. Qed.

Lemma Not_Not_without_error c r :
  snd (Eval c r) = None -> Eval (Not (Not c)) r = (false, None).
Proof.
  intros H. apply Not_without_error. now rewrite (Not_without_error _ _ H).
Qed.

End Laws.

(** C3 (the code departs from the claim).  The claim reads: when both
    predicates evaluate without error, [And(p, q)] returns [p(r) && q(r)]
    with a nil error, and when [p] errs, [q] is still evaluated and the
    conjunction of both results is returned with the error of [p].  On
    the code, [And(True, True)] evaluates to [false], and with a [p] that
    errs while returning [true] and [q = False] the result is [true]
    although the conjunction is [false]. *)
Theorem And_is_not_the_conjunction :
  (snd (Eval (@True_ unit) tt) = None
   /\ Eval (And (@True_ unit) True_) tt = (false, None)
   /\ Eval (And (@True_ unit) True_) tt
      <> (fst (Eval (@True_ unit) tt) && fst (Eval (@True_ unit) tt), None))
  /\ (snd (Eval failing_true tt) = Some "decode"
      /\ snd (Eval (@False_ unit) tt) = None
      /\ Eval (And failing_true False_) tt = (true, Some "decode")
      /\ Eval (And failing_true False_) tt
         <> (fst (Eval failing_true tt) && fst (Eval (@False_ unit) tt),
             snd (Eval failing_true tt))).
Proof. repeat split; discriminate. Qed.

(** C4 (the code departs from the claim).  The claim reads: on a record
    where [p] evaluates without error, [Not(Not(p))] returns the boolean
    of [p].  On the code, [True] evaluates to [true] without error while
    [Not(Not(True))] evaluates to [false]; already [Not(False)] is
    [false]. *)
Theorem Not_Not_True_is_false :
  snd (Eval (@True_ unit) tt) = None
  /\ Eval (@True_ unit) tt = (true, None)
  /\ Eval (Not (Not (@True_ unit))) tt = (false, None)
  /\ fst (Eval (Not (Not (@True_ unit))) tt) <> fst (Eval (@True_ unit) tt)
  /\ Eval (Not (@False_ unit)) tt = (false, None).
Proof. repeat split; discriminate. Qed.

End PredicateFacts.

(** ** Interpreter core *)

Module InterpFacts.
Import Predicate Interp Samples.

Section Core.
Context {R : Type}.
Implicit Types (pi : PolicyInterpreter R) (r : R).

Lemma EvalFilters_loop_true (fs : list (Filter R)) r :
  EvalFilters_loop fs r = true <-> exists f, f ∈ fs /\ filter_matches f r.
Proof.
  induction fs as [|f fs IH]; simpl.
  - split; [discriminate | intros (f & Hf & _); inversion Hf].
  - destruct (FEnabled f && holds (fcondition f) r) eqn:E.
    + split; [intros _ | reflexivity].
      apply andb_true_iff in E. exists f. split; [left | exact E].
    + rewrite IH. split.
      * intros (g & Hg & Hm). exists g. split; [now right | exact Hm].
      * intros (g & Hg & Hm). apply elem_of_cons in Hg as [-> | Hg].
        -- destruct Hm as [H1 H2]. rewrite H1, H2 in E. discriminate.
        -- now exists g.
Qed.

Lemma apply_rules_true (rs : list (Rule R)) r (m : bool) :
  apply_rules rs r m = true <->
  m = true \/ exists rule, rule ∈ rs /\ rule_matches rule r.
Proof.
  revert m. induction rs as [|rule rs IH]; intros m; simpl.
  - split; [now left | intros [H | (x & Hx & _)]; [exact H | inversion Hx]].
  - destruct (Enabled rule && holds (condition rule) r) eqn:E; rewrite IH.
    + apply andb_true_iff in E. split; [intros _ | now left].
      right. exists rule. split; [left | exact E].
    + split.
      * intros [H | (x & Hx & Hm)]; [now left | right].
        exists x. split; [now right | exact Hm].
      * intros [H | (x & Hx & Hm)]; [now left | right].
        apply elem_of_cons in Hx as [-> | Hx].
        -- destruct Hm as [H1 H2]. rewrite H1, H2 in E. discriminate.
        -- now exists x.
Qed.

(** [Process] hands back the pointer it was given or nil; the record is
    never written to. *)
Lemma Process_returns_its_argument pi r r' :
  Process pi r = Some r' -> r' = r.
Proof.
  unfold Process. destruct (EvalFilters pi r); [discriminate|].
  destruct (apply_rules _ _ _); congruence.
Qed.

(** The worker pushes downstream exactly the records that [Process]
    returns, in the order of arrival. *)
Lemma worker_is_Process pi (q : list R) :
  has_out pi = true -> worker pi q = omap (Process pi) q.
Proof.
  intros Hout. induction q as [|r q IH]; [reflexivity|].
  simpl. unfold Process. destruct (EvalFilters pi r); [exact IH|].
  rewrite Hout, andb_true_r.
  destruct (apply_rules _ _ _); simpl; now rewrite IH.
Qed.

(** In enrich mode the worker pushes each record that no filter drops
    exactly once, in the order of arrival. *)
Lemma worker_enrich_passthrough pi (q : list R) :
  mode pi = EnrichMode -> has_out pi = true ->
  Forall (fun r => EvalFilters pi r = false) q ->
  worker pi q = q.
Proof.
  intros Hmode Hout Hq. induction Hq as [|r q Hr _ IH]; [reflexivity|].
  simpl. rewrite Hr, Hmode, Hout. simpl.
  assert (H : apply_rules (rules pi) r true = true)
    by (apply apply_rules_true; now left).
  now rewrite H, IH.
Qed.

(** C1.  A record on which some enabled filter evaluates to true is
    dropped ([Process] returns nil) whatever the rules say.  For a record
    on which no enabled filter evaluates to true: in enrich mode
    [Process] returns the record; in alert mode it returns the record if
    and only if some enabled rule evaluates to true on it, and nil
    otherwise. *)
Theorem Process_filters_then_rules pi r :
  ((exists f, f ∈ filters pi /\ filter_matches f r) -> Process pi r = None)
  /\ ((forall f, f ∈ filters pi -> ~ filter_matches f r) ->
      (mode pi = EnrichMode -> Process pi r = Some r)
      /\ (mode pi = AlertMode ->
          (Process pi r = Some r <->
           exists rule, rule ∈ rules pi /\ rule_matches rule r)
          /\ ((~ exists rule, rule ∈ rules pi /\ rule_matches rule r) ->
              Process pi r = None))).
Proof.
  split.
  - intros H. apply EvalFilters_loop_true in H.
    unfold Process, EvalFilters. now rewrite H.
  - intros Hnone.
    assert (HF : EvalFilters pi r = false).
    { destruct (EvalFilters pi r) eqn:E; [|reflexivity].
      apply EvalFilters_loop_true in E as (f & Hf & Hm).
      exfalso. exact (Hnone f Hf Hm). }
    unfold Process. rewrite HF. split.
    + intros ->. simpl.
      assert (H : apply_rules (rules pi) r true = true)
        by (apply apply_rules_true; now left).
      now rewrite H.
    + intros ->. simpl.
      assert (Hiff : apply_rules (rules pi) r false = true <->
                     exists rule, rule ∈ rules pi /\ rule_matches rule r).
      { rewrite apply_rules_true. split; [intros [H|H]; [discriminate | exact H] | now right]. }
      destruct (apply_rules (rules pi) r false) eqn:E.
      * split; [split; [intros _; now apply Hiff | reflexivity]|].
        intros Hno. exfalso. apply Hno. now apply Hiff.
      * split; [split; [discriminate|] | reflexivity].
        intros H. apply Hiff in H. discriminate.
Qed.

End Core.

Lemma Process_filters_then_rules_witness :
  Process (sample_interpreter AlertMode) 0 = None
  /\ Process (sample_interpreter EnrichMode) 5 = Some 5
  /\ Process (sample_interpreter AlertMode) 12 = Some 12
  /\ Process (sample_interpreter AlertMode) 5 = None.
Proof.
  assert (Hpass : forall m n, n <> 0 ->
            forall f, f ∈ filters (sample_interpreter m) -> ~ filter_matches f n).
  { intros m n Hn f Hf [_ Hm]. apply list_elem_of_singleton in Hf. subst f.
    apply Z.eqb_eq in Hm. contradiction. }
  split; [|split; [|split]].
  - destruct (Process_filters_then_rules (sample_interpreter AlertMode) 0) as [H _].
    apply H. exists drop_zero. split; [left | split; reflexivity].
  - destruct (Process_filters_then_rules (sample_interpreter EnrichMode) 5) as [_ H].
    destruct (H (Hpass EnrichMode 5 ltac:(discriminate))) as [He _].
    exact (He eq_refl).
  - destruct (Process_filters_then_rules (sample_interpreter AlertMode) 12) as [_ H].
    destruct (H (Hpass AlertMode 12 ltac:(discriminate))) as [_ Ha].
    destruct (Ha eq_refl) as [Hiff _]. apply Hiff.
    exists above_ten. split; [left | split; reflexivity].
  - destruct (Process_filters_then_rules (sample_interpreter AlertMode) 5) as [_ H].
    destruct (H (Hpass AlertMode 5 ltac:(discriminate))) as [_ Ha].
    destruct (Ha eq_refl) as [_ Hnil]. apply Hnil.
    intros (rule & Hr & _ & Hm). apply list_elem_of_singleton in Hr. subst rule.
    discriminate Hm.
Defined.

(** C2 (the code departs from the claim).  The claim reads: for a record
    that passes the filters, every enabled rule that matches appends its
    metadata to the context of the record before the record is
    forwarded, and in alert mode the context is marked [alert=true].  On
    the code, an alert-mode interpreter whose enabled rule matches
    forwards the record, both through [Process] and through the worker,
    with the context it came with: no rule is recorded and the alert
    flag is still unset. *)
Theorem Process_leaves_context_untouched :
  rule_matches Falco.always_rule Falco.bash_event
  /\ EvalFilters Falco.alert_interpreter Falco.bash_event = false
  /\ worker Falco.alert_interpreter [Falco.bash_event] = [Falco.bash_event]
  /\ exists r', Process Falco.alert_interpreter Falco.bash_event = Some r'
                /\ Falco.CtxRules (Falco.Ctx r') = []
                /\ Falco.CtxTags (Falco.Ctx r') = []
                /\ Falco.Alert (Falco.Ctx r') = false.
Proof.
  split; [split; reflexivity|]. split; [reflexivity|]. split; [reflexivity|].
  exists Falco.bash_event. repeat split.
Qed.

End InterpFacts.

(** ** Field mapper *)

Module MapperFacts.
Import Mapper.

(** [ParseInt] on a few literals: a sign is accepted, a value outside the
    64-bit range or a text with another byte is an error. *)
Example ParseInt_examples :
  ParseInt "42" = (42, None)
  /\ ParseInt "-7" = (-7, None)
  /\ ParseInt "+15" = (15, None)
  /\ ParseInt "9223372036854775807" = (9223372036854775807, None)
  /\ ParseInt "9223372036854775808" = (9223372036854775807, Some ErrRange)
  /\ ParseInt "-9223372036854775808" = (-9223372036854775808, None)
  /\ ParseInt "4x" = (0, Some ErrSyntax)
  /\ ParseInt "-" = (0, Some ErrSyntax)
  /\ ParseInt EmptyString = (0, Some ErrSyntax).
Proof. repeat split. Qed.

(** The digit loop on the decimal form of a number, most significant
    digit first. *)
Lemma digits_string_of_uint (d d' : Decimal.uint) :
  digits (NilEmpty.string_of_uint d) (Z.of_N (Unsigned.of_lu d'))
  = Some (Z.of_N (Unsigned.of_lu (Decimal.revapp d d'))).
Proof.
  revert d'. induction d as [|d IH|d IH|d IH|d IH|d IH|d IH|d IH|d IH|d IH|d IH];
    intros d'; [reflexivity|..];
    cbn [NilEmpty.string_of_uint digits Decimal.revapp];
    match goal with |- context [digit_of ?c] =>
      let v := eval vm_compute in (digit_of c) in change (digit_of c) with v end;
    cbv iota; rewrite <- IH; f_equal; cbn [Unsigned.of_lu]; lia.
Qed.

Lemma digits_to_uint (p : positive) :
  digits (NilEmpty.string_of_uint (Pos.to_uint p)) 0 = Some (Z.pos p).
Proof.
  change 0 with (Z.of_N (Unsigned.of_lu Decimal.Nil)).
  rewrite digits_string_of_uint. f_equal.
  change (Decimal.revapp (Pos.to_uint p) Decimal.Nil) with (Decimal.rev (Pos.to_uint p)).
  rewrite <- Unsigned.of_uint_alt, Unsigned.of_to. reflexivity.
Qed.

Lemma string_of_uint_head (d : Decimal.uint) :
  d <> Decimal.Nil ->
  exists c t, NilZero.string_of_uint d = String c t
              /\ NilZero.string_of_uint d = NilEmpty.string_of_uint d
              /\ Ascii.eqb c "+" = false /\ Ascii.eqb c "-" = false.
Proof.
  destruct d; [congruence|..]; intros _; eexists _, _; repeat split.
Qed.

Lemma ParseUint_to_uint (p : positive) :
  Z.pos p <= maxUint64 ->
  ParseUint (NilZero.string_of_uint (Pos.to_uint p)) = (Z.pos p, None).
Proof.
  intros Hp.
  destruct (string_of_uint_head (Pos.to_uint p) (Unsigned.to_uint_nonnil p))
    as (c & t & Hs & Hne & _).
  unfold ParseUint. rewrite Hs at 1. cbn [String.eqb].
  rewrite Hne, digits_to_uint.
  destruct (Z.gtb_spec (Z.pos p) maxUint64); [lia | reflexivity].
Qed.

(** [ParseInt] reads back what [FormatInt] prints: the two agree on the
    decimal form of every 64-bit integer. *)
Lemma ParseInt_FormatInt (z : Z) :
  - 2 ^ 63 <= z < 2 ^ 63 -> ParseInt (FormatInt z) = (z, None).
Proof.
  intros Hz. destruct z as [|p|p]; [reflexivity|..]; unfold FormatInt;
    cbn [Z.to_int NilZero.string_of_int].
  - destruct (string_of_uint_head (Pos.to_uint p) (Unsigned.to_uint_nonnil p))
      as (c & t & Hs & _ & Hplus & Hminus).
    unfold ParseInt. rewrite Hs. rewrite Hplus, Hminus. rewrite <- Hs.
    rewrite ParseUint_to_uint by (unfold maxUint64; lia).
    destruct (Z.geb_spec (Z.pos p) (2 ^ 63)); [lia|]. reflexivity.
  - unfold ParseInt. change (Ascii.eqb "-" "+") with false.
    change (Ascii.eqb "-" "-") with true. cbv iota.
    rewrite ParseUint_to_uint by (unfold maxUint64; lia).
    destruct (Z.gtb_spec (Z.pos p) (2 ^ 63)); [lia|]. reflexivity.
Qed.

Lemma cut_not_found (s sep : string) :
  String.index 0 sep s = None -> cut s sep = (EmptyString, EmptyString, false).
Proof. unfold cut. now intros ->. Qed.

Lemma cut_found (s sep : string) (i : nat) :
  String.index 0 sep s = Some i ->
  cut s sep = (substring 0 i s, substring (i + 1) (String.length s - (i + 1)) s, true).
Proof. unfold cut. now intros ->. Qed.

Section WithRecord.
Context {Record : Type}.
Variable trimBoundingQuotes : string -> string.
Variable gjsonGet : string -> string -> string.
Variables SF_PROC_TTY SF_PROC_ENTRY : string.
Implicit Types (m : FieldMapper Record) (attr : string) (r : Record).

Local Abbreviation MapStr := (MapStr trimBoundingQuotes gjsonGet SF_PROC_TTY SF_PROC_ENTRY).

(** An attribute that is not in the table is mapped to its own name. *)
Lemma Map_unregistered m attr r :
  Mappers m !! attr = None -> Map m attr r = AString attr.
Proof. unfold Map. now intros ->. Qed.

Lemma Map_registered m attr r (e : FieldEntry Record) :
  Mappers m !! attr = Some e -> Map m attr r = Map_ e r.
Proof. unfold Map. now intros ->. Qed.

(** C6.  [MapInt(attr)(r)] is the mapped value when the accessor yields
    an int64; otherwise it is the value of [attr] read as a decimal
    integer literal when [attr] parses as one, and zero when it does
    not. *)
Theorem MapInt_cases m attr r :
  (forall v, Map m attr r = AInt64 v -> MapInt m attr r = v)
  /\ ((forall v, Map m attr r <> AInt64 v) ->
      (forall v, ParseInt attr = (v, None) -> MapInt m attr r = v)
      /\ (forall v e, ParseInt attr = (v, Some e) -> MapInt m attr r = 0)).
Proof.
  split.
  - intros v H. unfold MapInt. now rewrite H.
  - intros Hno. unfold MapInt.
    destruct (Map m attr r) as [v| | | | |] eqn:E;
      try (split; [intros v' -> | intros v' e ->]; reflexivity).
    exfalso. exact (Hno v eq_refl).
Qed.

(** The text before the first bracket when the attribute has one, the
    whole attribute otherwise: what [MapStr] looks up when the text
    before the bracket is not in the table. *)
Lemma MapStr_unknown_base m attr r (i : nat) :
  String.index 0 "[" attr = Some i ->
  Mappers m !! substring 0 i attr = None ->
  MapStr m attr r = Some (trimBoundingQuotes (substring 0 i attr)).
Proof.
  intros Hi Hbase. unfold Mapper.MapStr. rewrite (cut_found _ _ _ Hi).
  rewrite Hbase. simpl. now rewrite (Map_unregistered _ _ _ Hbase).
Qed.

(** C9 (as amended).  For an attribute name that is not in the mapper
    table, [Map(attr)(r)] is the string [attr] itself; and when [attr]
    moreover contains no opening bracket, [MapStr(attr)(r)] is [attr]
    with its bounding quotes trimmed. *)
Theorem MapStr_unregistered_literal m attr r :
  Mappers m !! attr = None ->
  Map m attr r = AString attr
  /\ (String.index 0 "[" attr = None ->
      MapStr m attr r = Some (trimBoundingQuotes attr)).
Proof.
  intros Hun. split; [now apply Map_unregistered|].
  intros Hi. unfold Mapper.MapStr. rewrite (cut_not_found _ _ Hi). simpl.
  now rewrite (Map_unregistered _ _ _ Hun).
Qed.

End WithRecord.

Lemma MapInt_cases_witness :
  MapInt Falco.TheMapper "sf.proc.pid" Falco.bash_event = 42
  /\ MapInt Falco.TheMapper "53" Falco.bash_event = 53
  /\ MapInt Falco.TheMapper "sf.proc.exe" Falco.bash_event = 0.
Proof.
  split; [|split].
  - destruct (MapInt_cases Falco.TheMapper "sf.proc.pid" Falco.bash_event) as [H _].
    apply H. reflexivity.
  - destruct (MapInt_cases Falco.TheMapper "53" Falco.bash_event) as [_ H].
    destruct H as [H _]; [intros v; discriminate|]. apply H. reflexivity.
  - destruct (MapInt_cases Falco.TheMapper "sf.proc.exe" Falco.bash_event) as [_ H].
    destruct H as [_ H]; [intros v; discriminate|].
    apply (H 0 ErrSyntax). reflexivity.
Defined.

Lemma MapStr_unregistered_literal_witness :
  Map Falco.TheMapper "'/bin/sh'" Falco.bash_event = AString "'/bin/sh'"
  /\ Falco.Mapper_MapStr "'/bin/sh'" Falco.bash_event = Some "/bin/sh".
Proof.
  destruct (MapStr_unregistered_literal Falco.trimBoundingQuotes Falco.gjsonGet
              Falco.SF_PROC_TTY Falco.SF_PROC_ENTRY
              Falco.TheMapper "'/bin/sh'" Falco.bash_event) as [H1 H2].
  - reflexivity.
  - split; [exact H1|]. apply H2. reflexivity.
Defined.

(** C9 (as stated) fails: [sf.proc.pid[x]] is not a key of the table, yet
    the text before its bracket is, so [MapStr] returns the decimal form
    of the process id and not the attribute with its quotes trimmed. *)
Lemma MapStr_unregistered_path_expression :
  Mappers Falco.TheMapper !! "sf.proc.pid[x]" = None
  /\ Falco.Mapper_MapStr "sf.proc.pid[x]" Falco.bash_event = Some "42"
  /\ Falco.trimBoundingQuotes "sf.proc.pid[x]" = "sf.proc.pid[x]"
  /\ Falco.Mapper_MapStr "sf.proc.pid[x]" Falco.bash_event
     <> Some (Falco.trimBoundingQuotes "sf.proc.pid[x]").
Proof. repeat split. discriminate. Qed.

(** A literal with a bracket whose leading text names no attribute is cut
    at the bracket. *)
Example MapStr_literal_with_bracket :
  Falco.Mapper_MapStr "'a[0]'" Falco.bash_event = Some "a".
Proof. reflexivity. Qed.

(** A registered name followed by a lone bracket makes the slice
    expression panic. *)
Example MapStr_lone_bracket :
  Falco.Mapper_MapStr "sf.proc.exe[" Falco.bash_event = None.
Proof. reflexivity. Qed.

End MapperFacts.

(** ** Operations vocabulary *)

Module OpsFacts.
Import Mapper Ops.

(** [Split] on a few texts. *)
Example Split_examples :
  Split "a,b,c" "," = ["a"; "b"; "c"]
  /\ Split "abc" "," = ["abc"]
  /\ Split EmptyString "," = [EmptyString]
  /\ Split ",a," "," = [EmptyString; "a"; EmptyString]
  /\ Split "a, b" ", " = ["a"; "b"].
Proof. repeat split. Qed.

(** A text that does not contain the separator is a list of one piece, so
    [eval] compares two such texts directly. *)
Lemma index_none_cons (sep : string) (c : ascii) (t : string) :
  String.index 0 sep (String c t) = None ->
  String.prefix sep (String c t) = false /\ String.index 0 sep t = None.
Proof.
  cbn [String.index]. destruct (String.prefix sep (String c t)); [discriminate|].
  destruct (String.index 0 sep t); [discriminate|]. now split.
Qed.

Lemma append_cons_assoc (cur : string) (c : ascii) (t : string) :
  (cur +:+ String c EmptyString) +:+ t = cur +:+ String c t.
Proof.
  induction cur as [|a cur IH]; [reflexivity|].
  change (String a ((cur +:+ String c EmptyString) +:+ t) = String a (cur +:+ String c t)).
  f_equal. exact IH.
Qed.

Lemma append_empty_r (s : string) : s +:+ EmptyString = s.
Proof.
  induction s as [|a s IH]; [reflexivity|].
  change (String a (s +:+ EmptyString) = String a s). f_equal. exact IH.
Qed.

Lemma Split_from_no_sep (sep s cur : string) :
  String.index 0 sep s = None -> Split_from sep s cur 0 = [cur +:+ s].
Proof.
  revert cur. induction s as [|c t IH]; intros cur H.
  - simpl. now rewrite append_empty_r.
  - apply index_none_cons in H as [Hp Ht]. cbn [Split_from]. rewrite Hp.
    rewrite IH by exact Ht. now rewrite append_cons_assoc.
Qed.

Lemma Split_no_sep (s sep : string) :
  Contains s sep = false -> Split s sep = [s].
Proof.
  unfold Contains, Split. destruct (String.index 0 sep s) eqn:H; [discriminate|].
  intros _. destruct sep as [|a sep].
  - destruct s; discriminate H.
  - now rewrite Split_from_no_sep.
Qed.

Lemma eval_no_sep (LISTSEP l x : string) (op : operator) :
  Contains l LISTSEP = false -> Contains x LISTSEP = false ->
  eval LISTSEP l x op = op l x.
Proof.
  intros Hl Hx. unfold eval. rewrite (Split_no_sep _ _ Hl), (Split_no_sep _ _ Hx).
  simpl. now destruct (op l x).
Qed.

Section WithMapper.
Context {Record : Type}.
Variable trimBoundingQuotes : string -> string.
Variable gjsonGet : string -> string -> string.
Variables SF_PROC_TTY SF_PROC_ENTRY : string.
Variable LISTSEP : string.
Variable TheMapper : FieldMapper Record.

Local Abbreviation MapStr :=
  (MapStr' Record trimBoundingQuotes gjsonGet SF_PROC_TTY SF_PROC_ENTRY TheMapper).
Local Abbreviation Eq :=
  (Eq Record trimBoundingQuotes gjsonGet SF_PROC_TTY SF_PROC_ENTRY LISTSEP TheMapper).
Local Abbreviation In :=
  (In Record trimBoundingQuotes gjsonGet SF_PROC_TTY SF_PROC_ENTRY LISTSEP TheMapper).
Local Abbreviation eval := (eval LISTSEP).

(** [In] with a one-element list compares the mapped attribute with the
    element as it is written. *)
Lemma In_singleton (a x : string) (r : Record) :
  In a [x] r = (l ← MapStr a r; Some (eval l x ops_eq)).
Proof.
  unfold Ops.In; simpl. destruct (Ops.MapStr' _ _ _ _ _ _ a r); simpl; [|reflexivity].
  now destruct (Ops.eval _ _ _ _).
Qed.

(** C5 (as amended).  When the value [MapStr(a)(r)] contains no list
    separator and the element [x] is mapped to itself by [MapStr] (it is
    a literal without bounding quotes and not the name of an attribute),
    [In(a, [x])] and [Eq(a, x)] evaluate to the same boolean on [r]. *)
Theorem In_singleton_is_Eq (a x : string) (r : Record) (v : string) :
  MapStr a r = Some v ->
  Contains v LISTSEP = false ->
  MapStr x r = Some x ->
  In a [x] r = Eq a x r.
Proof.
  intros Ha _ Hx. rewrite In_singleton. unfold Ops.Eq.
  rewrite Ha, Hx. reflexivity.
Qed.

End WithMapper.

Lemma In_singleton_is_Eq_witness :
  Falco.Ops_In "sf.proc.exe" ["/usr/bin/bash"] Falco.bash_event
  = Falco.Ops_Eq "sf.proc.exe" "/usr/bin/bash" Falco.bash_event.
Proof.
  apply (In_singleton_is_Eq Falco.trimBoundingQuotes Falco.gjsonGet
           Falco.SF_PROC_TTY Falco.SF_PROC_ENTRY Falco.LISTSEP Falco.TheMapper
           "sf.proc.exe" "/usr/bin/bash" Falco.bash_event "/usr/bin/bash");
    reflexivity.
Defined.

(** C5 (as stated) fails: the process id is mapped to [42], which holds no
    list separator; [In] compares it with the text [sf.proc.pid] of the
    list element, [Eq] maps its right operand and compares it with
    [42]. *)
Lemma In_singleton_differs_from_Eq :
  Falco.Mapper_MapStr "sf.proc.pid" Falco.bash_event = Some "42"
  /\ Contains "42" Falco.LISTSEP = false
  /\ Falco.Ops_In "sf.proc.pid" ["sf.proc.pid"] Falco.bash_event = Some false
  /\ Falco.Ops_Eq "sf.proc.pid" "sf.proc.pid" Falco.bash_event = Some true.
Proof. repeat split. Qed.

(** The same happens with a quoted literal: [Eq] trims the quotes of its
    right operand, [In] does not. *)
Example In_keeps_quotes :
  Falco.Ops_In "sf.proc.exe" ["'/usr/bin/bash'"] Falco.bash_event = Some false
  /\ Falco.Ops_Eq "sf.proc.exe" "'/usr/bin/bash'" Falco.bash_event = Some true.
Proof. repeat split. Qed.

End OpsFacts.

(** ** Policy compiler: severity parsing *)

Module CompilerFacts.
Import Interp Compiler.

Lemma eqb_false_of_neq (s t : string) : s <> t -> (s =? t)%string = false.
Proof. apply String.eqb_neq. Qed.

(** C7.  The severity texts debug, info, informational and notice are
    mapped to low, warning to medium, and error, critical and emergency
    to high; the names low, medium and high are mapped to themselves; any
    other text gives low and a warning.  The text is compared after
    lowering its case, and a recognised text writes no warning. *)
Theorem getPriority_table (p : string) :
  (ToLower p ∈ ["debug"; "info"; "informational"; "notice"] ->
   getPriority (Some p) = (Low, []))
  /\ (ToLower p = "warning" -> getPriority (Some p) = (Medium, []))
  /\ (ToLower p ∈ ["error"; "critical"; "emergency"] ->
      getPriority (Some p) = (High, []))
  /\ (forall q, q ∈ [Low; Medium; High] -> ToLower p = Priority_String q ->
      getPriority (Some p) = (q, []))
  /\ (ToLower p ∉ ["low"; "medium"; "high"; "debug"; "info"; "informational";
                   "notice"; "warning"; "error"; "critical"; "emergency"] ->
      getPriority (Some p) = (Low, [unrecognized p])).
Proof.
  unfold getPriority. repeat split.
  - intros H. repeat (apply elem_of_cons in H as [-> | H]; [reflexivity|]).
    inversion H.
  - intros ->. reflexivity.
  - intros H. repeat (apply elem_of_cons in H as [-> | H]; [reflexivity|]).
    inversion H.
  - intros q Hq ->. now destruct q.
  - intros H.
    repeat (rewrite eqb_false_of_neq;
            [| intros E; apply H; rewrite E; repeat constructor]).
    reflexivity.
Qed.

Lemma getPriority_table_witness :
  getPriority (Some "NOTICE") = (Low, [])
  /\ getPriority (Some "Warning") = (Medium, [])
  /\ getPriority (Some "critical") = (High, [])
  /\ getPriority (Some "medium") = (Medium, [])
  /\ getPriority (Some "alert")
     = (Low, ["Unrecognized priority value alert. Deferring to low" +:+ newline]).
Proof.
  split; [|split; [|split; [|split]]].
  - destruct (getPriority_table "NOTICE") as (H & _). apply H.
    vm_compute. repeat constructor.
  - destruct (getPriority_table "Warning") as (_ & H & _). apply H. reflexivity.
  - destruct (getPriority_table "critical") as (_ & _ & H & _). apply H.
    vm_compute. repeat constructor.
  - destruct (getPriority_table "medium") as (_ & _ & _ & H & _).
    apply (H Medium); [repeat constructor | reflexivity].
  - destruct (getPriority_table "alert") as (_ & _ & _ & _ & H). apply H.
    vm_compute. intros Hin.
    repeat (apply elem_of_cons in Hin as [Hin | Hin]; [discriminate Hin|]).
    inversion Hin.
Defined.

(** A rule without a severity clause has priority low. *)
Example getPriority_absent : getPriority None = (Low, []).
Proof. reflexivity. Qed.

End CompilerFacts.

(** ** Log stream tailer *)

Module TailerFacts.
Import Tailer Samples.

(** [DecodeRune] consumes at least one byte of a non-empty slice, so the
    loop index of [decodeAndSend] always advances. *)
Lemma DecodeRune_width_pos (p : list byte) :
  p <> [] -> (1 <= snd (DecodeRune p))%nat.
Proof.
  destruct p as [|p0 rest]; [congruence|]. intros _. unfold DecodeRune.
  repeat (case_match; simpl; try lia).
Qed.

Lemma runes_from_drop (k : nat) (b : list byte) :
  runes_from k b = runes (drop k b).
Proof.
  revert k. induction b as [|x b IH]; intros k.
  - now destruct k.
  - destruct k as [|k]; [reflexivity|]. simpl. apply IH.
Qed.

Lemma runes_cons (x : byte) (rest : list byte) :
  runes (x :: rest)
  = fst (DecodeRune (x :: rest))
    :: runes (drop (snd (DecodeRune (x :: rest)) - 1) rest).
Proof.
  unfold runes at 1. cbn [runes_from].
  destruct (DecodeRune (x :: rest)) as [r w]. simpl.
  now rewrite runes_from_drop.
Qed.

(** With fuel for the bytes that remain, the loop started at index [i]
    ends and has handled the runes of [b[i:]] one after the other. *)
Lemma decode_loop_runes (pathname : string) (n : Z) (b : list byte) :
  Z.of_nat (length b) <= n ->
  forall (fuel i : nat) (st : World * list byte),
    (length b - i <= fuel)%nat ->
    decode_loop fuel pathname n b i st
    = Some (fold_left (on_rune pathname) (runes (drop i b)) st).
Proof.
  intros Hn. induction fuel as [|fuel IH]; intros i st Hfuel.
  - assert (Hi : (length b <= i)%nat) by lia.
    cbn [decode_loop]. replace (i <? length b)%nat with false
      by (symmetry; apply Nat.ltb_ge; lia).
    rewrite drop_ge by lia. reflexivity.
  - destruct (Nat.ltb_spec i (length b)) as [Hlt | Hge].
    + cbn [decode_loop].
      replace (i <? length b)%nat with true by (symmetry; apply Nat.ltb_lt; lia).
      replace (Z.of_nat i <? n) with true by (symmetry; apply Z.ltb_lt; lia).
      cbn [andb].
      destruct (drop i b) as [|x rest] eqn:Hd.
      { apply (f_equal length) in Hd. rewrite length_drop in Hd. simpl in Hd. lia. }
      pose proof (DecodeRune_width_pos (x :: rest) ltac:(discriminate)) as Hw.
      rewrite runes_cons.
      destruct (DecodeRune (x :: rest)) as [r w]. simpl in Hw |- *.
      rewrite IH by lia. do 3 f_equal.
      assert (Hrest : rest = drop (S i) b).
      { replace (S i) with (i + 1)%nat by lia. rewrite <- drop_drop, Hd. reflexivity. }
      rewrite Hrest, drop_drop. f_equal. lia.
    + cbn [decode_loop].
      replace (i <? length b)%nat with false by (symmetry; apply Nat.ltb_ge; lia).
      rewrite drop_ge by lia. reflexivity.
Qed.

Lemma newlines_cons (r : rune) (rs : list rune) :
  newlines (r :: rs) = if r =? 10 then S (newlines rs) else newlines rs.
Proof.
  unfold newlines. rewrite filter_cons.
  destruct (Z.eqb_spec r 10) as [-> | H].
  - now rewrite decide_True.
  - now rewrite decide_False.
Qed.

(** Each newline rune adds one line to the channel and no other rune
    adds any. *)
Lemma on_rune_lines (pathname : string) (rs : list rune) (st : World * list byte) :
  length (lines (fst (fold_left (on_rune pathname) rs st)))
  = (length (lines (fst st)) + newlines rs)%nat.
Proof.
  revert st. induction rs as [|r rs IH]; intros st.
  - simpl. now rewrite Nat.add_0_r.
  - cbn [fold_left]. rewrite IH, newlines_cons.
    unfold on_rune. destruct (Z.eqb_spec r 13) as [-> | H13]; [reflexivity|].
    destruct (Z.eqb_spec r 10) as [-> | H10]; [|reflexivity].
    destruct st as [w part]. simpl. rewrite length_app. simpl. lia.
Qed.

(** C8.  For a byte buffer [b] of length [n] and any pending partial
    buffer, the decode step ends and has handled the runes of [b] in
    order: a carriage return is discarded, a newline sends exactly one
    [LogLine] carrying the accumulated partial text and resets the
    partial buffer, any other rune is appended to the partial buffer; the
    number of lines sent is the number of newline runes.  At the call in
    the stream, where [b] is the first [count] bytes of the read buffer,
    the bytes of the read buffer beyond [count] have no influence. *)
Theorem decodeAndSend_runewise (pathname : string) (n : Z) (b : list byte)
  (st : World * list byte) :
  Z.of_nat (length b) = n ->
  exists st',
    decodeAndSend pathname n b st = Some st'
    /\ st' = fold_left (on_rune pathname) (runes b) st
    /\ (forall w part, on_rune pathname (w, part) 13 = (w, part))
    /\ (forall w part,
          on_rune pathname (w, part) 10
          = (MkWorld (lines w ++ [New pathname (string_of_list_byte part)])
               (<[pathname := default 0 (logLines w !! pathname) + 1]> (logLines w))
               (lastReadTime w) (completed w), []))
    /\ (forall w part r, r <> 13 -> r <> 10 ->
          on_rune pathname (w, part) r = (w, WriteRune part r))
    /\ length (lines (fst st')) = (length (lines (fst st)) + newlines (runes b))%nat
    /\ (forall buf buf' count err sr sk cc sc ok t w g,
          take count buf = take count buf' ->
          iteration pathname (MkEnv buf count err sr sk cc sc ok t) w g
          = iteration pathname (MkEnv buf' count err sr sk cc sc ok t) w g).
Proof.
  intros Hn. eexists. split; [|split; [reflexivity|]].
  - unfold decodeAndSend. rewrite (decode_loop_runes pathname n b) by lia.
    now rewrite drop_0.
  - split; [reflexivity|]. split; [reflexivity|]. split.
    + intros w part r H13 H10. unfold on_rune.
      destruct (Z.eqb_spec r 13); [contradiction|].
      destruct (Z.eqb_spec r 10); [contradiction|]. reflexivity.
    + split; [apply on_rune_lines|].
      intros buf buf' count err sr sk cc sc ok t w g Htake.
      unfold iteration. simpl. now rewrite Htake.
Qed.

Lemma decodeAndSend_runewise_witness :
  exists w,
    decodeAndSend "a.log" 9 sample_bytes (fresh_world, [Byte.x78])
    = Some (w, [Byte.xef; Byte.xbf; Byte.xbd; Byte.xef; Byte.xbf; Byte.xbd])
    /\ lines w = [New "a.log" "xab"; New "a.log" (string_of_list_byte [Byte.xc3; Byte.xa9])]
    /\ logLines w !! "a.log" = Some 2.
Proof.
  destruct (decodeAndSend_runewise "a.log" 9 sample_bytes (fresh_world, [Byte.x78])
              eq_refl) as (st' & Hrun & Hst & _).
  exists (fst st'). rewrite Hrun, Hst. repeat split.
Defined.

(** With a slice longer than [n] the loop can read past [n]: a rune
    that starts before index [n] is decoded with all its bytes. *)
Example decodeAndSend_longer_slice :
  decodeAndSend "a.log" 1 [Byte.xc3; Byte.xa9] (fresh_world, [])
  = Some (fresh_world, [Byte.xc3; Byte.xa9]).
Proof. reflexivity. Qed.

(** On plain ASCII text the runes are the bytes, and a line of plain text
    ended by a newline is sent as it stands, after the text that was
    pending. *)
Lemma zb_bz (x : byte) : zb (bz x) = x.
Proof. destruct x; reflexivity. Qed.

Lemma bz_range (x : byte) : 0 <= bz x < 256.
Proof. destruct x; vm_compute; split; congruence. Qed.

Lemma DecodeRune_ascii (x : byte) (rest : list byte) :
  bz x < 0x80 -> DecodeRune (x :: rest) = (bz x, 1%nat).
Proof.
  intros H. unfold DecodeRune, first.
  destruct (Z.ltb_spec (bz x) 0x80); [reflexivity | lia].
Qed.

Lemma WriteRune_ascii (buf : list byte) (x : byte) :
  bz x < 0x80 -> WriteRune buf (bz x) = buf ++ [x].
Proof.
  intros H. pose proof (bz_range x) as Hr. unfold WriteRune, RuneSelf.
  rewrite Z.mod_small by lia.
  destruct (Z.ltb_spec (bz x) 0x80); [|lia]. now rewrite zb_bz.
Qed.

Lemma runes_ascii (b : list byte) :
  Forall (fun x => bz x < 0x80) b -> runes b = map bz b.
Proof.
  induction 1 as [|x b Hx _ IH]; [reflexivity|].
  unfold runes. cbn [runes_from]. rewrite DecodeRune_ascii by exact Hx.
  cbn [map]. f_equal. exact IH.
Qed.

Lemma fold_plain (pathname : string) (b : list byte) (w : World) (part : list byte) :
  Forall plain b ->
  fold_left (on_rune pathname) (map bz b) (w, part) = (w, part ++ b).
Proof.
  intros H. revert part. induction H as [|x b (Hx & H13 & H10) _ IH]; intros part.
  - simpl. now rewrite app_nil_r.
  - cbn [map fold_left]. unfold on_rune at 2.
    destruct (Z.eqb_spec (bz x) 13); [contradiction|].
    destruct (Z.eqb_spec (bz x) 10); [contradiction|].
    cbn [fst snd]. rewrite WriteRune_ascii by exact Hx. rewrite IH.
    now rewrite <- app_assoc.
Qed.

Lemma decodeAndSend_plain_line (pathname : string) (b : list byte) (w : World)
  (part : list byte) :
  Forall plain b ->
  decodeAndSend pathname (Z.of_nat (length (b ++ [Byte.x0a]))) (b ++ [Byte.x0a]) (w, part)
  = Some (sendLine pathname (w, part ++ b)).
Proof.
  intros H. unfold decodeAndSend.
  rewrite (decode_loop_runes pathname _ (b ++ [Byte.x0a])) by lia.
  rewrite drop_0, runes_ascii.
  - pose proof (fold_plain pathname b w part H) as Hf. unfold rune in Hf.
    rewrite map_app, fold_left_app, Hf. reflexivity.
  - apply Forall_app. split; [|repeat constructor].
    eapply Forall_impl; [exact H|]. now intros x [Hx _].
Qed.

(** When rotation is seen at end of file, the pass changes nothing that is
    shared, sends nothing, and ends the goroutine after the start of its
    successor. *)
Lemma iteration_on_rotation (pathname : string) (e : Env) (w : World)
  (g : Goroutine) (newfi : FileInfo) :
  rd_count e = 0%nat -> rd_err e = REOF -> stat e = StatOk newfi ->
  SameFile (fi g) newfi = false ->
  iteration pathname e w g = (w, Exit (spawn e newfi)).
Proof.
  intros Hc He Hs Hf. unfold iteration. rewrite Hc. cbn.
  rewrite He, Hs. cbn. rewrite Hf. reflexivity.
Qed.

(** C10 (as amended).  When a pass of the stream goroutine reads no bytes
    at end of file and the stat of the pathname reports another file than
    the one the goroutine was opened on, the goroutine starts a new
    goroutine of the same stream reading the new file from the start with
    an empty partial buffer (when the file can be opened) and returns: the
    completed flag and the lines sent are as before, and the goroutine is
    gone together with its partial buffer, whatever that held, so an
    unterminated last line of the old file is never sent.  The completed
    flag is not set by the goroutine that returns. *)
Theorem rotation_pass (pathname : string) (k : nat) (e : Env) (s : System)
  (g : Goroutine) (newfi : FileInfo) :
  running s !! k = Some g ->
  rd_count e = 0%nat -> rd_err e = REOF -> stat e = StatOk newfi ->
  SameFile (fi g) newfi = false ->
  exists s',
    run_pass pathname k e s = Some s'
    /\ world s' = world s
    /\ IsComplete (world s') = IsComplete (world s)
    /\ lines (world s') = lines (world s)
    /\ running s'
       = delete k (running s)
         ++ (if open_ok e then [MkGoroutine newfi [] 0] else [])
    /\ (forall part tot,
          run_pass pathname k e
            (MkSystem (world s) (<[k := MkGoroutine (fi g) part tot]> (running s)))
          = Some s').
Proof.
  intros Hk Hc He Hs Hf. destruct s as [w l]. cbn [world running] in *.
  assert (Hlt : (k < length l)%nat) by (eapply lookup_lt_Some; eauto).
  assert (Hdel : forall g', delete k (<[k := g']> l) = delete k l).
  { intros g'. apply list_eq. intros j. rewrite !list_lookup_delete.
    destruct (decide (j < k)%nat); rewrite list_lookup_insert_ne by lia; reflexivity. }
  assert (Hpass : forall l' g', l' !! k = Some g' -> fi g' = fi g ->
            run_pass pathname k e (MkSystem w l')
            = Some (MkSystem w
                      (delete k l' ++ (if open_ok e then [MkGoroutine newfi [] 0] else [])))).
  { intros l' g' Hl Hfi. unfold run_pass. cbn [running world]. rewrite Hl.
    cbn [mbind option_bind].
    rewrite (iteration_on_rotation pathname e w g' newfi Hc He Hs)
      by (rewrite Hfi; exact Hf).
    unfold spawn. destruct (open_ok e); [reflexivity|]. now rewrite app_nil_r. }
  eexists. split.
  - exact (Hpass l g Hk eq_refl).
  - cbn [world running]. repeat split. intros part tot.
    rewrite (Hpass _ (MkGoroutine (fi g) part tot)).
    + now rewrite Hdel.
    + now apply list_lookup_insert_eq.
    + reflexivity.
Qed.

Lemma rotation_pass_witness :
  run_pass "a.log" 0 rotation_seen before_rotation = Some after_rotation.
Proof.
  destruct (rotation_pass "a.log" 0 rotation_seen before_rotation
              (MkGoroutine old_file [Byte.x78] 1) new_file
              eq_refl eq_refl eq_refl eq_refl eq_refl)
    as (s' & Hrun & _).
  rewrite Hrun. f_equal.
  apply (f_equal (fun o => default before_rotation o)) in Hrun. simpl in Hrun.
  now subst s'.
Defined.

(** C10 (as stated) fails: after the rotation the stream is stopped; the
    goroutine started at the rotation runs on the same stream and sets
    its completed flag, so [IsComplete] becomes true.  The text [x] held
    by the goroutine that returned has not been sent. *)
Lemma rotated_stream_completes :
  rd_count rotation_seen = 0%nat
  /\ rd_err rotation_seen = REOF
  /\ stat rotation_seen = StatOk new_file
  /\ SameFile old_file new_file = false
  /\ run_pass "a.log" 0 rotation_seen before_rotation = Some after_rotation
  /\ run_pass "a.log" 0 stop_requested after_rotation = Some after_stop
  /\ steps "a.log" before_rotation after_stop
  /\ IsComplete (world before_rotation) = false
  /\ IsComplete (world after_stop) = true
  /\ lines (world after_stop) = [].
Proof.
  assert (H1 : run_pass "a.log" 0 rotation_seen before_rotation = Some after_rotation)
    by reflexivity.
  assert (H2 : run_pass "a.log" 0 stop_requested after_rotation = Some after_stop)
    by reflexivity.
  repeat split; try assumption.
  eapply steps_cons; [econstructor; exact H1|].
  eapply steps_cons; [econstructor; exact H2|]. apply steps_refl.
Qed.

End TailerFacts.

(** ** Conjunctions and disjunctions of slices of predicates *)

Module CompositionFacts.
Import Predicate Interp MoreSamples.

Section Slices.
Context {R : Type}.
Implicit Types (c : Criterion R) (l : list (Criterion R)) (r : R).

Lemma fold_Or_without_error l c r :
  snd (Eval c r) = None ->
  Eval (fold_left Or l c) r = match l with [] => Eval c r | _ => (false, None) end.
Proof.
  revert c. induction l as [|x l IH]; intros c Hc; [reflexivity|].
  cbn [fold_left]. rewrite IH.
  - destruct l; [|reflexivity]. now apply PredicateFacts.Or_without_error.
  - now rewrite (PredicateFacts.Or_without_error c x r Hc).
Qed.

Lemma fold_And_without_error l c r :
  snd (Eval c r) = None ->
  Eval (fold_left And l c) r = match l with [] => Eval c r | _ => (false, None) end.
Proof.
  revert c. induction l as [|x l IH]; intros c Hc; [reflexivity|].
  cbn [fold_left]. rewrite IH.
  - destruct l; [|reflexivity]. now apply PredicateFacts.And_without_error.
  - now rewrite (PredicateFacts.And_without_error c x r Hc).
Qed.

Lemma Eval_Any l r : Eval (Any l) r = (false, None).
Proof.
  unfold Any. rewrite fold_Or_without_error by reflexivity. now destruct l.
Qed.

(** X1.  [Any] of any slice of predicates, empty or not and whatever the
    predicates return, evaluates to [false] with a nil error on every
    record. *)
Theorem Any_is_false l r : Eval (Any l) r = (false, None).
Proof.
  unfold Any. rewrite fold_Or_without_error by reflexivity.
  destruct l as [|c l]; reflexivity.
Qed.

(** X2.  [All] of the empty slice evaluates to [true]; [All] of a
    non-empty slice evaluates to [false] with a nil error on every
    record, whatever the predicates return. *)
Theorem All_is_true_only_when_empty l r :
  Eval (All l) r = (match l with [] => true | _ => false end, None).
Proof.
  unfold All. rewrite fold_And_without_error by reflexivity. now destruct l.
Qed.

Lemma EvalFilters_loop_Any (fs : list (Filter R)) r :
  Forall (fun f => exists l, fcondition f = Any l) fs ->
  EvalFilters_loop fs r = false.
Proof.
  induction 1 as [|f fs [l Hl] _ IH]; [reflexivity|].
  simpl. unfold holds. rewrite Hl, Eval_Any. simpl.
  now rewrite andb_false_r.
Qed.

Lemma apply_rules_Any (rs : list (Rule R)) r (m : bool) :
  Forall (fun rule => exists l, condition rule = Any l) rs ->
  apply_rules rs r m = m.
Proof.
  induction 1 as [|rule rs [l Hl] _ IH]; [reflexivity|].
  simpl. unfold holds. rewrite Hl, Eval_Any. simpl.
  now rewrite andb_false_r.
Qed.

(** X3.  When every filter and rule condition is a disjunction built by
    [Any], which is what the compiler returns for every expression, no
    filter drops and no rule matches: [Process] returns every record in
    enrich mode and nil for every record in alert mode. *)
Theorem Process_with_compiled_conditions (pi : PolicyInterpreter R) r :
  Forall (fun f => exists l, fcondition f = Any l) (filters pi) ->
  Forall (fun rule => exists l, condition rule = Any l) (rules pi) ->
  Process pi r = match mode pi with EnrichMode => Some r | AlertMode => None end.
Proof.
  intros Hf Hr. unfold Process, EvalFilters.
  rewrite (EvalFilters_loop_Any _ r Hf), (apply_rules_Any _ r _ Hr).
  now destruct (mode pi).
Qed.

End Slices.

Lemma Process_with_compiled_conditions_witness :
  Process (compiled_interpreter AlertMode) 0 = None
  /\ Process (compiled_interpreter AlertMode) 12 = None
  /\ Process (compiled_interpreter EnrichMode) 0 = Some 0.
Proof.
  assert (Hf : forall m, Forall (fun f : Filter Z => exists l, fcondition f = Any l)
                              (filters (compiled_interpreter m))).
  { intros m. repeat constructor. eexists. reflexivity. }
  assert (Hr : forall m, Forall (fun rule : Rule Z => exists l, condition rule = Any l)
                              (rules (compiled_interpreter m))).
  { intros m. repeat constructor. eexists. reflexivity. }
  split; [|split].
  - exact (Process_with_compiled_conditions (compiled_interpreter AlertMode) 0
             (Hf AlertMode) (Hr AlertMode)).
  - exact (Process_with_compiled_conditions (compiled_interpreter AlertMode) 12
             (Hf AlertMode) (Hr AlertMode)).
  - exact (Process_with_compiled_conditions (compiled_interpreter EnrichMode) 0
             (Hf EnrichMode) (Hr EnrichMode)).
Defined.

End CompositionFacts.

(** ** The comparison operators over the pieces of their operands *)

Module OpsExtFacts.
Import Mapper Ops OpsExt.

Lemma eval_rattrs_true (op : operator) (x : string) (rs : list string) :
  eval_rattrs op x rs = true <-> exists y, y ∈ rs /\ op x y = true.
Proof.
  induction rs as [|y rs IH]; simpl.
  - split; [discriminate | intros (y & Hy & _); inversion Hy].
  - destruct (op x y) eqn:E.
    + split; [intros _; exists y; split; [left | exact E] | reflexivity].
    + rewrite IH. split.
      * intros (z & Hz & Hop). exists z. split; [now right | exact Hop].
      * intros (z & Hz & Hop). apply elem_of_cons in Hz as [-> | Hz]; [congruence|].
        now exists z.
Qed.

Lemma eval_lattrs_true (op : operator) (ls rs : list string) :
  eval_lattrs op ls rs = true <->
  exists x y, x ∈ ls /\ y ∈ rs /\ op x y = true.
Proof.
  induction ls as [|x ls IH]; simpl.
  - split; [discriminate | intros (x & y & Hx & _); inversion Hx].
  - destruct (eval_rattrs op x rs) eqn:E.
    + split; [intros _ | reflexivity].
      apply eval_rattrs_true in E as (y & Hy & Hop).
      exists x, y. split; [left | now split].
    + rewrite IH. split.
      * intros (a & b & Ha & Hb & Hop). exists a, b. split; [now right | now split].
      * intros (a & b & Ha & Hb & Hop). apply elem_of_cons in Ha as [-> | Ha].
        -- assert (eval_rattrs op x rs = true) by (apply eval_rattrs_true; eauto).
           congruence.
        -- now exists a, b.
Qed.

(** X4.  [eval] holds exactly when some piece of the left operand and
    some piece of the right operand, both split at the list separator,
    satisfy the operator. *)
Theorem eval_any_pair (LISTSEP l r : string) (op : operator) :
  eval LISTSEP l r op = true <->
  exists x y, x ∈ Split l LISTSEP /\ y ∈ Split r LISTSEP /\ op x y = true.
Proof.
  unfold eval. rewrite eval_lattrs_true.
  split; intros (x & y & Hx & Hy & Hop); exists x, y; auto.
Qed.

Lemma bool_eq_of_iff (a b : bool) : (a = true <-> b = true) -> a = b.
Proof.
  destruct a, b; intros [H1 H2]; try reflexivity.
  - symmetry. now apply H1.
  - now apply H2.
Qed.

Lemma eval_eq_sym (LISTSEP l r : string) :
  eval LISTSEP l r ops_eq = eval LISTSEP r l ops_eq.
Proof.
  apply bool_eq_of_iff. unfold eval. rewrite !eval_lattrs_true. unfold ops_eq.
  split; intros (x & y & Hx & Hy & Hop); exists y, x;
    (split; [exact Hy | split; [exact Hx | now rewrite String.eqb_sym]]).
Qed.

Lemma eval_mono (LISTSEP l r : string) (op1 op2 : operator) :
  (forall x y, op1 x y = true -> op2 x y = true) ->
  eval LISTSEP l r op1 = true -> eval LISTSEP l r op2 = true.
Proof.
  intros Hop. unfold eval. rewrite !eval_lattrs_true. intros (x & y & Hx & Hy & H).
  exists x, y. auto.
Qed.

Lemma prefix_empty (t : string) : String.prefix EmptyString t = true.
Proof. now destruct t. Qed.

Lemma prefix_refl (s : string) : String.prefix s s = true.
Proof.
  induction s as [|a s IH]; [reflexivity|]. cbn [String.prefix].
  destruct (ascii_dec a a); [exact IH | congruence].
Qed.

Lemma Contains_refl (s : string) : Contains s s = true.
Proof.
  unfold Contains. destruct s as [|a s]; [reflexivity|].
  cbn [String.index]. now rewrite prefix_refl.
Qed.

Lemma eq_implies_contains (x y : string) : ops_eq x y = true -> ops_contains x y = true.
Proof. unfold ops_eq, ops_contains. intros H%String.eqb_eq. subst. apply Contains_refl. Qed.

Lemma eq_implies_startswith (x y : string) :
  ops_eq x y = true -> ops_startswith x y = true.
Proof. unfold ops_eq, ops_startswith. intros H%String.eqb_eq. subst. apply prefix_refl. Qed.

Section WithMapper.
Context {Record : Type}.
Variable trimBoundingQuotes : string -> string.
Variable gjsonGet : string -> string -> string.
Variables SF_PROC_TTY SF_PROC_ENTRY : string.
Variable LISTSEP : string.
Variable TheMapper : FieldMapper Record.

Local Abbreviation MapStr :=
  (MapStr' Record trimBoundingQuotes gjsonGet SF_PROC_TTY SF_PROC_ENTRY TheMapper).
Local Abbreviation Eq :=
  (Eq Record trimBoundingQuotes gjsonGet SF_PROC_TTY SF_PROC_ENTRY LISTSEP TheMapper).
Local Abbreviation In :=
  (In Record trimBoundingQuotes gjsonGet SF_PROC_TTY SF_PROC_ENTRY LISTSEP TheMapper).
Local Abbreviation PMatch :=
  (PMatch Record trimBoundingQuotes gjsonGet SF_PROC_TTY SF_PROC_ENTRY LISTSEP TheMapper).
Local Abbreviation StartsWith :=
  (OpsExt.StartsWith Record trimBoundingQuotes gjsonGet SF_PROC_TTY SF_PROC_ENTRY LISTSEP TheMapper).
Local Abbreviation Contains_ :=
  (OpsExt.Contains_ Record trimBoundingQuotes gjsonGet SF_PROC_TTY SF_PROC_ENTRY LISTSEP TheMapper).

(** X5.  [Eq] does not depend on the order of its operands: [Eq(a, b)]
    and [Eq(b, a)] agree on every record, panics included. *)
Theorem Eq_commutes (a b : string) (r : Record) : Eq a b r = Eq b a r.
Proof.
  unfold Ops.Eq. destruct (Ops.MapStr' _ _ _ _ _ _ a r) as [x|],
    (Ops.MapStr' _ _ _ _ _ _ b r) as [y|]; simpl; try reflexivity.
  f_equal. apply eval_eq_sym.
Qed.

Lemma In_existsb (a : string) (list : list string) (r : Record) :
  In a list r
  = match list with
    | [] => Some false
    | _ => v ← MapStr a r; Some (existsb (fun x => eval LISTSEP v x ops_eq) list)
    end.
Proof.
  unfold Ops.In. induction list as [|x list IH]; [reflexivity|].
  cbn [In_loop]. destruct (Ops.MapStr' _ _ _ _ _ _ a r) as [v|] eqn:Hv;
    [|reflexivity].
  simpl. destruct (eval LISTSEP v x ops_eq); [reflexivity|].
  rewrite IH. destruct list; reflexivity.
Qed.

(** X6.  [In] over the empty list is false and does not call the
    accessor; over a non-empty list it is the disjunction, over the
    elements, of the comparison of the mapped attribute with the
    element, and it panics exactly when the accessor does. *)
Theorem In_any_element (a : string) (list : list string) (r : Record) :
  In a list r
  = match list with
    | [] => Some false
    | _ => v ← MapStr a r; Some (existsb (fun x => eval LISTSEP v x ops_eq) list)
    end.
Proof.
  unfold Ops.In. induction list as [|x list IH]; [reflexivity|].
  cbn [In_loop]. destruct (Ops.MapStr' _ _ _ _ _ _ a r) as [v|] eqn:Hv;
    [|reflexivity].
  simpl. destruct (eval LISTSEP v x ops_eq); [reflexivity|].
  rewrite IH. destruct list; reflexivity.
Qed.

Lemma PMatch_any_element (a : string) (list : list string) (r : Record) :
  PMatch a list r
  = match list with
    | [] => Some false
    | _ => v ← MapStr a r; Some (existsb (fun x => eval LISTSEP v x ops_contains) list)
    end.
Proof.
  unfold Ops.PMatch. induction list as [|x list IH]; [reflexivity|].
  cbn [PMatch_loop]. destruct (Ops.MapStr' _ _ _ _ _ _ a r) as [v|] eqn:Hv;
    [|reflexivity].
  simpl. destruct (eval LISTSEP v x ops_contains); [reflexivity|].
  rewrite IH. destruct list; reflexivity.
Qed.

(** X7.  Equality is the strongest comparison: on a record where
    [In(a, list)] holds [PMatch(a, list)] holds, and where [Eq(a, b)]
    holds [Contains(a, b)] and [StartsWith(a, b)] hold. *)
Theorem equality_implies_the_other_matches (a b : string) (list : list string)
  (r : Record) :
  (In a list r = Some true -> PMatch a list r = Some true)
  /\ (Eq a b r = Some true ->
      Contains_ a b r = Some true /\ StartsWith a b r = Some true).
Proof.
  split.
  - rewrite In_existsb, PMatch_any_element. destruct list as [|x list]; [discriminate|].
    destruct (Ops.MapStr' _ _ _ _ _ _ a r) as [v|]; [|discriminate]. simpl.
    intros [= H]. f_equal. apply orb_true_iff in H.
    apply orb_true_iff. destruct H as [H | H].
    + left. revert H. apply eval_mono, eq_implies_contains.
    + right. apply existsb_exists in H as (y & Hy & H). apply existsb_exists.
      exists y. split; [exact Hy|]. revert H. apply eval_mono, eq_implies_contains.
  - unfold Ops.Eq, OpsExt.Contains_, OpsExt.StartsWith.
    destruct (Ops.MapStr' _ _ _ _ _ _ a r) as [x|]; [|discriminate].
    destruct (Ops.MapStr' _ _ _ _ _ _ b r) as [y|]; [|discriminate]. simpl.
    intros [= H]. split; f_equal; revert H; apply eval_mono;
      [apply eq_implies_contains | apply eq_implies_startswith].
Qed.

End WithMapper.

End OpsExtFacts.

(** ** Split and Join *)

Module JoinFacts.
Import Mapper Ops OpsExt.

Lemma Split_from_cons (sep s cur : string) (k : nat) :
  exists x l, Split_from sep s cur k = x :: l.
Proof.
  revert cur k. induction s as [|c t IH]; intros cur k; [now eexists _, _|].
  cbn [Split_from]. destruct k as [|k]; [|apply IH].
  destruct (String.prefix sep (String c t)); [now eexists _, _ | apply IH].
Qed.

Lemma Join_cons (x : string) (l : list string) (sep : string) :
  l <> [] -> Join (x :: l) sep = x +:+ sep +:+ Join l sep.
Proof. destruct l; [congruence | reflexivity]. Qed.

Lemma append_assoc (a b c : string) : (a +:+ b) +:+ c = a +:+ b +:+ c.
Proof.
  induction a as [|x a IH]; [reflexivity|].
  change (String x ((a +:+ b) +:+ c) = String x (a +:+ b +:+ c)). now f_equal.
Qed.

Lemma prefix_drop (sep s : string) :
  String.prefix sep s = true -> s = sep +:+ string_drop (String.length sep) s.
Proof.
  revert s. induction sep as [|a sep IH]; intros s H; [reflexivity|].
  destruct s as [|b s]; [discriminate|]. cbn [String.prefix] in H.
  destruct (ascii_dec a b) as [->|]; [|discriminate].
  cbn [String.length string_drop].
  change (String b s = String b (sep +:+ string_drop (String.length sep) s)).
  f_equal. now apply IH.
Qed.

Lemma Join_Split_from (sep s cur : string) (k : nat) :
  sep <> EmptyString ->
  Join (Split_from sep s cur k) sep = cur +:+ string_drop k s.
Proof.
  intros Hsep. revert cur k. induction s as [|c t IH]; intros cur k.
  - simpl. destruct k; now rewrite OpsFacts.append_empty_r.
  - cbn [Split_from]. destruct k as [|k]; [|now rewrite IH].
    destruct (String.prefix sep (String c t)) eqn:Hp.
    + destruct (Split_from_cons sep t EmptyString (String.length sep - 1)) as (x & l & Hx).
      rewrite Join_cons by (rewrite Hx; discriminate). rewrite IH.
      pose proof (prefix_drop _ _ Hp) as Hd.
      destruct sep as [|a sep]; [congruence|].
      cbn [String.length string_drop] in Hd |- *. rewrite Hd.
      replace (S (String.length sep) - 1)%nat with (String.length sep) by lia.
      reflexivity.
    + rewrite IH. cbn [string_drop]. apply OpsFacts.append_cons_assoc.
Qed.

Lemma Join_explode (s : string) : Join (explode s) EmptyString = s.
Proof.
  induction s as [|c t IH]; [reflexivity|]. cbn [explode].
  destruct (explode t) eqn:E.
  - destruct t; [reflexivity | discriminate].
  - rewrite Join_cons by discriminate. rewrite IH. reflexivity.
Qed.

(** X8.  Joining the pieces of a split with the separator gives the
    text back, for every text and every separator. *)
Theorem Join_Split (s sep : string) : Join (Split s sep) sep = s.
Proof.
  unfold Split. destruct sep as [|a sep]; [apply Join_explode|].
  now rewrite Join_Split_from.
Qed.

Lemma prefix_single (c a : ascii) (t : string) :
  String.prefix (String c EmptyString) (String a t) = if ascii_dec c a then true else false.
Proof. cbn [String.prefix]. destruct (ascii_dec c a); [apply OpsExtFacts.prefix_empty | reflexivity]. Qed.

Lemma Split_from_app_single (c : ascii) (x rest cur : string) :
  Contains x (String c EmptyString) = false ->
  Split_from (String c EmptyString) (x +:+ rest) cur 0
  = Split_from (String c EmptyString) rest (cur +:+ x) 0.
Proof.
  unfold Contains. revert cur. induction x as [|a x IH]; intros cur H.
  - now rewrite OpsFacts.append_empty_r.
  - destruct (String.index 0 (String c EmptyString) (String a x)) eqn:Hi; [discriminate|].
    apply OpsFacts.index_none_cons in Hi as [Hp Hi].
    change (String a x +:+ rest) with (String a (x +:+ rest)).
    cbn [Split_from]. rewrite prefix_single in Hp |- *.
    destruct (ascii_dec c a); [discriminate|].
    rewrite IH by now rewrite Hi. now rewrite OpsFacts.append_cons_assoc.
Qed.

Lemma Split_of_Join (c : ascii) (l : list string) :
  l <> [] ->
  Forall (fun x => Contains x (String c EmptyString) = false) l ->
  Split (Join l (String c EmptyString)) (String c EmptyString) = l.
Proof.
  intros Hne Hl. unfold Split.
  induction Hl as [|x l Hx Hl IH]; [congruence|].
  destruct l as [|y l].
  - cbn [Join]. rewrite OpsFacts.Split_from_no_sep; [reflexivity|].
    unfold Contains in Hx. now destruct (String.index 0 (String c EmptyString) x).
  - rewrite Join_cons by discriminate.
    rewrite Split_from_app_single by exact Hx.
    change (String c EmptyString +:+ Join (y :: l) (String c EmptyString))
      with (String c (Join (y :: l) (String c EmptyString))).
    cbn [Split_from]. rewrite prefix_single.
    destruct (ascii_dec c c); [|congruence].
    cbn [String.length Nat.sub]. f_equal. apply IH. discriminate.
Qed.

(** X9.  With a separator of one byte, splitting the join of a non-empty
    list of texts none of which contains the separator gives the list
    back. *)
Theorem Split_Join (c : ascii) (l : list string) :
  l <> [] ->
  Forall (fun x => Contains x (String c EmptyString) = false) l ->
  Split (Join l (String c EmptyString)) (String c EmptyString) = l.
Proof.
  intros Hne Hl. unfold Split.
  induction Hl as [|x l Hx Hl IH]; [congruence|].
  destruct l as [|y l].
  - cbn [Join]. rewrite OpsFacts.Split_from_no_sep; [reflexivity|].
    unfold Contains in Hx. now destruct (String.index 0 (String c EmptyString) x).
  - rewrite Join_cons by discriminate.
    rewrite Split_from_app_single by exact Hx.
    change (String c EmptyString +:+ Join (y :: l) (String c EmptyString))
      with (String c (Join (y :: l) (String c EmptyString))).
    cbn [Split_from]. rewrite prefix_single.
    destruct (ascii_dec c c); [|congruence].
    cbn [String.length Nat.sub]. f_equal. apply IH. discriminate.
Qed.

Lemma Split_Join_witness :
  Split (Join ["40000"; "53"] ",") "," = ["40000"; "53"].
Proof.
  apply (Split_Join ","%char ["40000"; "53"]); [discriminate|].
  repeat constructor.
Defined.

End JoinFacts.

(** ** The string and integer views of an attribute *)

Module MapperExtFacts.
Import Mapper Ops OpsExt.

Lemma substring_full (s : string) : substring 0 (String.length s) s = s.
Proof. induction s as [|a s IH]; [reflexivity|]. cbn [String.length substring]. now f_equal. Qed.

Lemma substring_zero (n : nat) (s : string) : substring n 0 s = EmptyString.
Proof.
  revert n. induction s as [|a s IH]; intros [|n]; try reflexivity. cbn [substring]. apply IH.
Qed.

Lemma length_append (a b : string) :
  String.length (a +:+ b) = (String.length a + String.length b)%nat.
Proof.
  induction a as [|x a IH]; [reflexivity|].
  change (String x a +:+ b) with (String x (a +:+ b)). cbn [String.length]. now rewrite IH.
Qed.

Lemma substring_append_l (a b : string) : substring 0 (String.length a) (a +:+ b) = a.
Proof.
  induction a as [|x a IH]; [now rewrite substring_zero|].
  change (String x a +:+ b) with (String x (a +:+ b)).
  cbn [String.length substring]. now f_equal.
Qed.

(** The first occurrence of a one-byte separator cuts the text in the
    part before it, which does not contain it, and the part after it. *)
Lemma index_single_found (c : ascii) (s : string) (i : nat) :
  String.index 0 (String c EmptyString) s = Some i ->
  s = substring 0 i s +:+ String c EmptyString
      +:+ substring (i + 1) (String.length s - (i + 1)) s
  /\ String.index 0 (String c EmptyString) (substring 0 i s) = None.
Proof.
  revert i. induction s as [|a s IH]; intros i H; [discriminate|].
  cbn [String.index] in H. rewrite JoinFacts.prefix_single in H.
  destruct (ascii_dec c a) as [->|Hne].
  - injection H as <-. cbn [Nat.add String.length substring].
    replace (S (String.length s) - 1)%nat with (String.length s) by lia.
    rewrite substring_full. now split.
  - destruct (String.index 0 (String c EmptyString) s) as [j|] eqn:Hj; [|discriminate].
    injection H as <-. destruct (IH j eq_refl) as [Hs Hnone].
    cbn [Nat.add String.length substring]. split.
    + replace (S (String.length s) - S (j + 1))%nat
        with (String.length s - (j + 1))%nat by lia.
      change (String a s = String a (substring 0 j s +:+ String c EmptyString
               +:+ substring (j + 1) (String.length s - (j + 1)) s)).
      f_equal. exact Hs.
    + cbn [String.index]. rewrite JoinFacts.prefix_single.
      destruct (ascii_dec c a); [contradiction|]. now rewrite Hnone.
Qed.

Lemma index_single_app (c : ascii) (b a : string) :
  String.index 0 (String c EmptyString) b = None ->
  String.index 0 (String c EmptyString) (b +:+ String c a) = Some (String.length b).
Proof.
  induction b as [|x b IH]; intros H.
  - change (EmptyString +:+ String c a) with (String c a).
    cbn [String.index]. rewrite JoinFacts.prefix_single.
    now destruct (ascii_dec c c).
  - apply OpsFacts.index_none_cons in H as [Hp Hi].
    rewrite JoinFacts.prefix_single in Hp.
    change (String x b +:+ String c a) with (String x (b +:+ String c a)).
    cbn [String.index]. rewrite JoinFacts.prefix_single.
    destruct (ascii_dec c x); [discriminate|]. now rewrite IH.
Qed.

(** X10.  With a separator [sep] of one byte, [cut(s, sep)] reports the
    separator found exactly when [s] contains it, and then [s] is the
    part before, the separator and the part after, the part before being
    free of the separator. *)
Theorem cut_round_trip (c : ascii) (s : string) :
  let sep := String c EmptyString in
  (forall before after, cut s sep = (before, after, true) ->
     s = before +:+ sep +:+ after /\ Contains before sep = false)
  /\ (snd (cut s sep) = Contains s sep)
  /\ (Contains s sep = false -> cut s sep = (EmptyString, EmptyString, false)).
Proof.
  cbv zeta. unfold cut, Contains.
  destruct (String.index 0 (String c EmptyString) s) as [i|] eqn:Hi.
  - destruct (index_single_found c s i Hi) as [Hs Hnone]. repeat split.
    + injection H as <- <-. exact Hs.
    + injection H as <- <-. now rewrite Hnone.
    + discriminate.
  - repeat split; intros; discriminate.
Qed.

Section WithRecord.
Context {Record : Type}.
Variable trimBoundingQuotes : string -> string.
Variable gjsonGet : string -> string -> string.
Variables SF_PROC_TTY SF_PROC_ENTRY : string.
Implicit Types (m : FieldMapper Record) (attr : string) (r : Record).

Local Abbreviation MapStr := (MapStr trimBoundingQuotes gjsonGet SF_PROC_TTY SF_PROC_ENTRY).

Lemma slice_to_None (s : string) :
  slice_to s (Z.of_nat (String.length s) - 1) = None <-> s = EmptyString.
Proof.
  unfold slice_to. destruct s as [|a s]; [now split|].
  cbn [String.length]. split; [|discriminate].
  destruct (Z.leb_spec 0 (Z.of_nat (S (String.length s)) - 1)); [|lia].
  destruct (Z.leb_spec (Z.of_nat (S (String.length s)) - 1) (Z.of_nat (S (String.length s))));
    [discriminate | lia].
Qed.

(** X11.  [MapStr(attr)] panics on a record exactly when [attr] is a
    registered attribute name followed by a lone opening bracket; on
    every other attribute text it returns a string. *)
Theorem MapStr_panics_only_on_lone_bracket m attr r :
  MapStr m attr r = None <->
  exists base, attr = base +:+ "[" /\ Contains base "[" = false
               /\ is_Some (Mappers m !! base).
Proof.
  unfold Mapper.MapStr, cut. split.
  - destruct (String.index 0 "[" attr) as [i|] eqn:Hi; [|discriminate].
    destruct (index_single_found _ _ _ Hi) as [Hs Hnone].
    destruct (Mappers m !! substring 0 i attr) as [e|] eqn:He.
    + rewrite bool_decide_eq_true_2 by eauto.
      destruct (slice_to _ _) eqn:Hsl; [discriminate|]. intros _.
      apply slice_to_None in Hsl. rewrite Hsl in Hs.
      exists (substring 0 i attr). split; [exact Hs|]. split.
      * unfold Contains. now rewrite Hnone.
      * rewrite He. eauto.
    + rewrite bool_decide_eq_false_2 by (intros [? ?]; discriminate). discriminate.
  - intros (base & -> & Hc & Hreg).
    assert (Hi : String.index 0 "[" (base +:+ "[") = Some (String.length base)).
    { apply index_single_app. unfold Contains in Hc.
      now destruct (String.index 0 "[" base). }
    rewrite Hi. rewrite substring_append_l, length_append.
    rewrite bool_decide_eq_true_2 by exact Hreg.
    cbn [String.length]. replace (String.length base + 1 - (String.length base + 1))%nat with 0%nat by lia.
    rewrite substring_zero. reflexivity.
Qed.

(** X12.  A decimal literal that is not an attribute name is mapped to
    its value by [MapInt], so [Gt] and [Ge] compare an attribute with a
    literal by value, on either side. *)
Theorem numeric_literal_compares_by_value m (a : string) (n : Z) r :
  Mappers m !! FormatInt n = None -> int64 n ->
  MapInt m (FormatInt n) r = n
  /\ Gt Record m a (FormatInt n) r = (MapInt m a r >? n)
  /\ Ge Record m a (FormatInt n) r = (MapInt m a r >=? n)
  /\ Gt Record m (FormatInt n) a r = (n >? MapInt m a r)
  /\ Ge Record m (FormatInt n) a r = (n >=? MapInt m a r).
Proof.
  intros Hun Hn.
  assert (H : MapInt m (FormatInt n) r = n).
  { unfold MapInt, Map. rewrite Hun. now rewrite MapperFacts.ParseInt_FormatInt. }
  unfold Gt, Ge. now rewrite H.
Qed.

(** X13.  For an attribute without bracket whose accessor yields an
    int64, the string view is the decimal form of the integer view, and
    parsing it gives the integer view back; for the two terminal flags
    it is the boolean text of "non-zero". *)
Theorem int64_views_agree m attr r (v : Z) :
  Map m attr r = AInt64 v -> String.index 0 "[" attr = None -> int64 v ->
  MapInt m attr r = v
  /\ MapStr m attr r
     = Some (if (attr =? SF_PROC_TTY)%string || (attr =? SF_PROC_ENTRY)%string
             then FormatBool (negb (v =? 0))
             else FormatInt (MapInt m attr r))
  /\ ParseInt (FormatInt (MapInt m attr r)) = (v, None).
Proof.
  intros Hmap Hi Hv.
  assert (H : MapInt m attr r = v) by (unfold MapInt; now rewrite Hmap).
  split; [exact H|]. split.
  - unfold Mapper.MapStr. rewrite (MapperFacts.cut_not_found _ _ Hi). simpl.
    rewrite Hmap, H. reflexivity.
  - rewrite H. now apply MapperFacts.ParseInt_FormatInt.
Qed.

End WithRecord.

Lemma numeric_literal_compares_by_value_witness :
  FalcoExt.Ops_Gt "sf.proc.pid" "41" Falco.bash_event = true
  /\ FalcoExt.Ops_Ge "43" "sf.proc.pid" Falco.bash_event = true.
Proof.
  destruct (numeric_literal_compares_by_value Falco.TheMapper "sf.proc.pid" 41
              Falco.bash_event) as (_ & H1 & _).
  - reflexivity.
  - unfold int64. lia.
  - destruct (numeric_literal_compares_by_value Falco.TheMapper "sf.proc.pid" 43
                Falco.bash_event) as (_ & _ & _ & _ & H2).
    + reflexivity.
    + unfold int64. lia.
    + split; [etransitivity; [exact H1 | reflexivity]
             | etransitivity; [exact H2 | reflexivity]].
Defined.

Lemma int64_views_agree_witness :
  Falco.Mapper_MapStr "sf.proc.pid" Falco.bash_event = Some "42".
Proof.
  destruct (int64_views_agree Falco.trimBoundingQuotes Falco.gjsonGet
              Falco.SF_PROC_TTY Falco.SF_PROC_ENTRY Falco.TheMapper "sf.proc.pid"
              Falco.bash_event 42) as (_ & H & _).
  - reflexivity.
  - reflexivity.
  - unfold int64. lia.
  - etransitivity; [exact H | reflexivity].
Defined.

End MapperExtFacts.

(** ** Port attributes *)

Module PortFacts.
Import Mapper Ops OpsExt Falco FalcoExt.

Lemma uint_string_no_comma (d : Decimal.uint) :
  String.index 0 "," (NilEmpty.string_of_uint d) = None.
Proof.
  induction d; cbn [NilEmpty.string_of_uint]; [reflexivity|..];
    cbn [String.index]; rewrite JoinFacts.prefix_single;
    match goal with |- context [ascii_dec ?a ?b] => destruct (ascii_dec a b) end;
    try discriminate; now rewrite IHd.
Qed.

Lemma FormatInt_no_comma (z : Z) : Contains (FormatInt z) "," = false.
Proof.
  unfold Contains, FormatInt.
  destruct (Z.to_int z) as [d|d]; cbn [NilZero.string_of_int].
  - destruct d; try reflexivity; unfold NilZero.string_of_uint;
      now rewrite uint_string_no_comma.
  - cbn [String.index]. rewrite JoinFacts.prefix_single.
    destruct (ascii_dec "," "-"); [discriminate|].
    destruct d; try reflexivity; unfold NilZero.string_of_uint;
      now rewrite uint_string_no_comma.
Qed.

Lemma FormatInt_eqb (a b : Z) :
  int64 a -> int64 b -> (FormatInt a =? FormatInt b)%string = (a =? b).
Proof.
  intros Ha Hb. destruct (Z.eqb_spec a b) as [->|Hne].
  - apply String.eqb_refl.
  - apply String.eqb_neq. intros H.
    pose proof (MapperFacts.ParseInt_FormatInt a Ha) as Pa.
    pose proof (MapperFacts.ParseInt_FormatInt b Hb) as Pb.
    rewrite H in Pa. congruence.
Qed.

Lemma eval_lattrs_eq_single (l : list string) (y : string) :
  eval_lattrs ops_eq l [y] = existsb (fun x => (x =? y)%string) l.
Proof.
  induction l as [|x l IH]; [reflexivity|]. simpl. unfold ops_eq at 1.
  destruct (x =? y)%string; [reflexivity | exact IH].
Qed.

(** X14.  The value of a port attribute, which joins the decimal forms of
    its columns with the list separator, compares equal to a decimal
    literal exactly when one of the columns has the value of the
    literal. *)
Theorem mapPort_matches_any_port (src : Z) (attrs : list Z) (r : Record_) (n : Z) :
  Forall (fun attr => int64 (GetInt r attr src)) attrs -> int64 n ->
  exists s,
    mapPort src attrs r = AString s
    /\ eval LISTSEP s (FormatInt n) ops_eq
       = existsb (fun attr => GetInt r attr src =? n) attrs.
Proof.
  intros Hattrs Hn. eexists. split; [reflexivity|]. unfold eval.
  rewrite (OpsFacts.Split_no_sep (FormatInt n) LISTSEP (FormatInt_no_comma n)).
  destruct attrs as [|a attrs].
  - cbn. unfold ops_eq.
    pose proof (MapperFacts.ParseInt_FormatInt n Hn) as P.
    destruct (FormatInt n); [discriminate P | reflexivity].
  - unfold LISTSEP. rewrite JoinFacts.Split_of_Join.
    + rewrite eval_lattrs_eq_single.
      induction Hattrs as [|x l Hx _ IH]; [reflexivity|].
      cbn [map existsb]. rewrite (FormatInt_eqb _ _ Hx Hn). now rewrite IH.
    + discriminate.
    + apply Forall_forall. intros x Hx. apply list_elem_of_In in Hx.
      apply in_map_iff in Hx as (y & <- & _). apply FormatInt_no_comma.
Qed.

Lemma mapPort_matches_any_port_witness :
  exists s,
    mapPort SYSFLOW_SRC [FL_NETW_SPORT_INT; FL_NETW_DPORT_INT] dns_flow = AString s
    /\ eval LISTSEP s "53" ops_eq = true.
Proof.
  destruct (mapPort_matches_any_port SYSFLOW_SRC [FL_NETW_SPORT_INT; FL_NETW_DPORT_INT]
              dns_flow 53) as (s & Hs & He).
  - repeat constructor; vm_compute; congruence.
  - split; vm_compute; congruence.
  - exists s. split; [exact Hs | exact He].
Defined.

End PortFacts.

(** ** Enabled flags and lists of the policy compiler *)

Module CompilerExtFacts.
Import Compiler CompilerExt.

Lemma existsb_eqb_elem (s : string) (l : list string) :
  existsb (String.eqb s) l = true <-> s ∈ l.
Proof.
  rewrite existsb_exists. split.
  - intros (x & Hx & He). apply String.eqb_eq in He. subst. now apply list_elem_of_In.
  - intros H. exists s. split; [now apply list_elem_of_In | apply String.eqb_refl].
Qed.

Lemma twelve_spellings (s : string) :
  s ∈ ["1"; "t"; "T"; "TRUE"; "true"; "True"; "0"; "f"; "F"; "FALSE"; "false"; "False"]
  <-> s ∈ ["1"; "t"; "T"; "TRUE"; "true"; "True"]
      \/ s ∈ ["0"; "f"; "F"; "FALSE"; "false"; "False"].
Proof. rewrite !elem_of_cons, !elem_of_nil. tauto. Qed.

Lemma true_is_not_false (s : string) :
  s ∈ ["1"; "t"; "T"; "TRUE"; "true"; "True"] ->
  s ∈ ["0"; "f"; "F"; "FALSE"; "false"; "False"] -> False.
Proof.
  rewrite !elem_of_cons, !elem_of_nil. intros H1 H2.
  repeat (destruct H1 as [H1 | H1]; [subst s;
    repeat (destruct H2 as [H2 | H2]; [discriminate H2|]); exact H2|]).
  exact H1.
Qed.

Section WithHelpers.
Variable trimBoundingQuotes : string -> string.

Local Abbreviation enabled_of := (enabled_of trimBoundingQuotes).
Local Abbreviation reduceList := (reduceList trimBoundingQuotes).

(** X15.  A filter or rule is disabled exactly when it carries an
    [enabled] clause whose text, bounding quotes trimmed, is one of
    [0], [f], [F], [FALSE], [false], [False]; a warning is logged exactly
    when the clause is present and its trimmed text is none of the
    twelve spellings of a boolean, and the filter or rule is then
    enabled. *)
Theorem enabled_unless_explicitly_false (clause : option string) :
  (fst (enabled_of clause) = false <->
   exists text, clause = Some text
     /\ trimBoundingQuotes text ∈ ["0"; "f"; "F"; "FALSE"; "false"; "False"])
  /\ (snd (enabled_of clause) <> [] <->
      exists text, clause = Some text
        /\ trimBoundingQuotes text ∉ ["1"; "t"; "T"; "TRUE"; "true"; "True";
                                      "0"; "f"; "F"; "FALSE"; "false"; "False"])
  /\ (snd (enabled_of clause) <> [] -> fst (enabled_of clause) = true).
Proof.
  destruct clause as [text|]; cbn [CompilerExt.enabled_of].
  2:{ split; [|split].
      - split; [discriminate | intros (text & H & _); discriminate H].
      - split; [intros H; now contradiction H | intros (text & H & _); discriminate H].
      - reflexivity. }
  unfold getEnabledFlag, ParseBool.
  set (flag := trimBoundingQuotes text).
  destruct (existsb (String.eqb flag) ["1"; "t"; "T"; "TRUE"; "true"; "True"]) eqn:Ht;
    [|destruct (existsb (String.eqb flag) ["0"; "f"; "F"; "FALSE"; "false"; "False"]) eqn:Hf];
    cbn [fst snd].
  - apply existsb_eqb_elem in Ht. split; [|split].
    + split; [discriminate|]. intros (t' & [= <-] & Hin).
      exfalso. exact (true_is_not_false flag Ht Hin).
    + split; [intros H; now contradiction H|]. intros (t' & [= <-] & Hnot).
      exfalso. apply Hnot. apply twelve_spellings. now left.
    + reflexivity.
  - apply existsb_eqb_elem in Hf. split; [|split].
    + split; [intros _; exists text; now split | reflexivity].
    + split; [intros H; now contradiction H|]. intros (t' & [= <-] & Hnot).
      exfalso. apply Hnot. apply twelve_spellings. now right.
    + intros H. now contradiction H.
  - assert (Hnt : flag ∉ ["1"; "t"; "T"; "TRUE"; "true"; "True"]).
    { intros H. apply existsb_eqb_elem in H. congruence. }
    assert (Hnf : flag ∉ ["0"; "f"; "F"; "FALSE"; "false"; "False"]).
    { intros H. apply existsb_eqb_elem in H. congruence. }
    split; [|split].
    + split; [discriminate|]. intros (t' & [= <-] & Hin). contradiction.
    + split; [|discriminate]. intros _. exists text. split; [reflexivity|].
      intros H. apply twelve_spellings in H as [H | H]; contradiction.
    + reflexivity.
Qed.

(** X16.  A list that names itself among its items is never reduced: the
    recursion of [reduceList] on it does not end, whatever the depth
    allowed. *)
Theorem reduceList_self_reference_diverges (lists : gmap string (list string))
  (name : string) (items : list string) :
  lists !! name = Some items -> name ∈ items ->
  forall fuel, reduceList fuel lists name = None.
Proof.
  intros Hl Hin. induction fuel as [|fuel IH]; [reflexivity|].
  cbn [CompilerExt.reduceList]. rewrite Hl.
  assert (H : mapM (reduceList fuel lists) items = None).
  { apply mapM_None. apply Exists_exists. now exists name. }
  now rewrite H.
Qed.

Lemma reduceList_fuel_mono (lists : gmap string (list string)) (fuel : nat) :
  forall sl res fuel', reduceList fuel lists sl = Some res -> (fuel <= fuel')%nat ->
    reduceList fuel' lists sl = Some res.
Proof.
  induction fuel as [|fuel IH]; intros sl res fuel' H Hle; [discriminate|].
  destruct fuel' as [|fuel']; [lia|]. cbn [CompilerExt.reduceList] in H |- *.
  destruct (lists !! sl) as [l|]; [|exact H].
  destruct (mapM (reduceList fuel lists) l) as [k|] eqn:Hk; [|discriminate].
  assert (Hk' : mapM (reduceList fuel' lists) l = Some k).
  { apply mapM_Some. apply mapM_Some in Hk.
    eapply Forall2_impl; [exact Hk|]. intros x y Hxy. apply (IH _ _ _ Hxy). lia. }
  now rewrite Hk'.
Qed.

(** X17.  When the list table has no cycle (a rank decreases from every
    list to each of its items), [reduceList] ends on every text once the
    depth allowed exceeds its rank, with a result that does not change
    under more depth and that consists of texts that are not list names,
    bounding quotes trimmed. *)
Theorem reduceList_flattens_acyclic_lists (lists : gmap string (list string))
  (rank : string -> nat) :
  (forall name items v, lists !! name = Some items -> v ∈ items ->
     (rank v < rank name)%nat) ->
  forall sl, exists res,
    (forall fuel, (rank sl < fuel)%nat -> reduceList fuel lists sl = Some res)
    /\ Forall (fun x => exists leaf, lists !! leaf = None
                                      /\ x = trimBoundingQuotes leaf) res.
Proof.
  intros Hrank.
  assert (Hex : forall fuel sl, (rank sl < fuel)%nat ->
            exists res, reduceList fuel lists sl = Some res
              /\ Forall (fun x => exists leaf, lists !! leaf = None
                                               /\ x = trimBoundingQuotes leaf) res).
  { induction fuel as [|fuel IH]; intros sl Hlt; [lia|].
    cbn [CompilerExt.reduceList]. destruct (lists !! sl) as [l|] eqn:Hl.
    - assert (Hall : Forall (fun v => exists res, reduceList fuel lists v = Some res
                /\ Forall (fun x => exists leaf, lists !! leaf = None
                                                 /\ x = trimBoundingQuotes leaf) res) l).
      { apply Forall_forall. intros v Hv. apply IH.
        specialize (Hrank sl l v Hl Hv). lia. }
      clear Hl Hlt. induction Hall as [|v l (res & Hres & Hleaf) _ IHl].
      + exists []. split; [reflexivity | constructor].
      + destruct IHl as (rest & Hrest & Hleaves).
        destruct (mapM (reduceList fuel lists) l) as [k|] eqn:Hk; [|discriminate].
        injection Hrest as <-.
        exists (res ++ concat k). split.
        * cbn. rewrite Hres. cbn. rewrite Hk. reflexivity.
        * apply Forall_app. now split.
    - exists [trimBoundingQuotes sl]. split; [reflexivity|].
      constructor; [|constructor]. now exists sl. }
  intros sl. destruct (Hex (S (rank sl)) sl ltac:(lia)) as (res & Hres & Hleaf).
  exists res. split; [|exact Hleaf].
  intros fuel Hfuel. apply (reduceList_fuel_mono lists (S (rank sl))); [exact Hres | lia].
Qed.

End WithHelpers.

Lemma reduceList_self_reference_diverges_witness :
  reduceList Falco.trimBoundingQuotes 100 MoreSamples.looping_lists "a" = None.
Proof.
  apply (reduceList_self_reference_diverges Falco.trimBoundingQuotes
           MoreSamples.looping_lists "a" ["a"; "b"]).
  - reflexivity.
  - apply elem_of_cons. now left.
Defined.

Lemma reduceList_flattens_acyclic_lists_witness :
  reduceList Falco.trimBoundingQuotes 3 MoreSamples.nested_lists "bins"
  = Some ["bash"; "sh"; "ls"].
Proof.
  destruct (reduceList_flattens_acyclic_lists Falco.trimBoundingQuotes
              MoreSamples.nested_lists MoreSamples.list_rank) with (sl := "bins")
    as (res & Hres & _).
  - intros name items v Hl Hv. unfold MoreSamples.nested_lists in Hl.
    apply lookup_insert_Some in Hl as [[<- <-] | [_ Hl]].
    + apply elem_of_cons in Hv as [-> | Hv]; [vm_compute; lia|].
      apply elem_of_cons in Hv as [-> | Hv]; [vm_compute; lia|].
      now apply elem_of_nil in Hv.
    + apply lookup_insert_Some in Hl as [[<- <-] | [_ Hl]]; [|discriminate Hl].
      apply elem_of_cons in Hv as [-> | Hv]; [vm_compute; lia|].
      apply elem_of_cons in Hv as [-> | Hv]; [vm_compute; lia|].
      now apply elem_of_nil in Hv.
  - pose proof (Hres 3%nat ltac:(vm_compute; lia)) as H. rewrite H.
    vm_compute in H. injection H as <-. reflexivity.
Defined.

End CompilerExtFacts.

(** ** The mapper table and the hash table *)

Module TableFacts.
Import MapperExt HashAction.

Lemma filter_ext_elem {A : Type} (P Q : A -> Prop) `{!forall x, Decision (P x)}
  `{!forall x, Decision (Q x)} (l : list A) :
  (forall x, x ∈ l -> (P x <-> Q x)) -> filter P l = filter Q l.
Proof.
  induction l as [|a l IH]; intros HPQ; [reflexivity|].
  rewrite !filter_cons. rewrite IH by (intros x Hx; apply HPQ; now right).
  pose proof (HPQ a ltac:(left)) as Ha.
  destruct (decide (P a)) as [Hp|Hp], (decide (Q a)) as [Hq|Hq]; try reflexivity;
    exfalso; tauto.
Qed.

Section Merge.
Context {V : Type}.
Implicit Types (m : gmap string V) (l : list (string * V)).

Lemma union_insert_present m (M : gmap string V) (k : string) (v e : V) :
  m !! k = Some e -> m ∪ <[k:=v]> M = m ∪ M.
Proof.
  intros Hm. apply map_eq. intros j. rewrite !lookup_union.
  destruct (decide (k = j)) as [<-|Hne].
  - rewrite Hm, lookup_insert_eq. now destruct (M !! k).
  - now rewrite lookup_insert_ne.
Qed.

Lemma getMappers_loop_union m l :
  NoDup l.*1 ->
  fst (getMappers_loop m l) = m ∪ list_to_map l
  /\ snd (getMappers_loop m l) = filter (fun k => is_Some (m !! k)) l.*1.
Proof.
  revert m. induction l as [|[k v] l IH]; intros m Hnd.
  - cbn. now rewrite (right_id_L ∅ (∪)).
  - rewrite fmap_cons in Hnd. apply NoDup_cons in Hnd as [Hk Hnd].
    rewrite fmap_cons, filter_cons. cbn [getMappers_loop list_to_map foldr fst].
    change (foldr (fun p => <[p.1:=p.2]>) ∅ l) with (list_to_map l : gmap string V).
    destruct (m !! k) as [e|] eqn:Hm.
    + destruct (IH m Hnd) as [IH1 IH2].
      destruct (getMappers_loop m l) as [m' w]. cbn [fst snd] in *. subst. split.
      * symmetry. now apply (union_insert_present m _ k v e).
      * rewrite decide_True by eauto. reflexivity.
    + destruct (IH (<[k:=v]> m) Hnd) as [IH1 IH2]. split.
      * rewrite IH1. rewrite <- insert_union_l. apply insert_union_r. exact Hm.
      * rewrite IH2. rewrite decide_False by (intros [? ?]; discriminate).
        apply filter_ext_elem. intros x Hx.
        rewrite lookup_insert_ne; [reflexivity|]. intros ->. contradiction.
Qed.

(** X18.  Whatever the order in which the range over the non-exported
    table yields its entries, [getMappers] returns the table in which a
    key of the exported table keeps its exported entry and every other
    key of the non-exported table has its non-exported entry; the keys
    warned about are the keys present in both tables. *)
Theorem getMappers_exported_wins (exported nonexported : gmap string V)
  (order : list (string * V)) :
  order ≡ₚ map_to_list nonexported ->
  fst (getMappers_loop exported order) = exported ∪ nonexported
  /\ (forall k, (exported ∪ nonexported) !! k
               = match exported !! k with
                 | Some e => Some e
                 | None => nonexported !! k
                 end)
  /\ (forall k, k ∈ snd (getMappers_loop exported order) <->
               is_Some (exported !! k) /\ is_Some (nonexported !! k)).
Proof.
  intros Hperm.
  assert (Hnd : NoDup order.*1).
  { rewrite Hperm. apply NoDup_fst_map_to_list. }
  destruct (getMappers_loop_union exported order Hnd) as [H1 H2].
  assert (Hmap : (list_to_map order : gmap string V) = nonexported).
  { rewrite <- (list_to_map_to_list nonexported).
    apply list_to_map_proper; [exact Hnd | exact Hperm]. }
  split; [now rewrite H1, Hmap|]. split.
  - intros k. rewrite lookup_union. destruct (exported !! k), (nonexported !! k); reflexivity.
  - intros k. rewrite H2, list_elem_of_filter. split.
    + intros [He Hk]. split; [exact He|].
      apply list_elem_of_fmap in Hk as ([k' v] & -> & Hkv).
      rewrite Hperm in Hkv. apply elem_of_map_to_list in Hkv. cbn. rewrite Hkv. eauto.
    + intros [He [v Hv]]. split; [exact He|].
      apply list_elem_of_fmap. exists (k, v). split; [reflexivity|].
      rewrite Hperm. now apply elem_of_map_to_list.
Qed.

End Merge.

Lemma getMappers_exported_wins_witness :
  fst (getMappers_loop ({["sf.type" := 1]} : gmap string Z)
         (map_to_list ({["sf.type" := 2]} ∪ {["evt.type" := 3]})))
  = {["sf.type" := 1]} ∪ ({["sf.type" := 2]} ∪ {["evt.type" := 3]}).
Proof.
  apply (getMappers_exported_wins ({["sf.type" := 1]} : gmap string Z)
           ({["sf.type" := 2]} ∪ {["evt.type" := 3]})
           (map_to_list ({["sf.type" := 2]} ∪ {["evt.type" := 3]}))).
  reflexivity.
Defined.

Lemma createHashMap_snoc (data : list (list string)) (line : list string) :
  createHashMap (data ++ [line]) = add_row (createHashMap data) line.
Proof. unfold createHashMap. now rewrite fold_left_app. Qed.

(** X19.  The hash table built from the CSV rows maps a path to the hash
    of the last row of two fields that carries this path; rows with
    another number of fields are skipped, and a path that no row of two
    fields carries is absent. *)
Theorem createHashMap_last_row_wins (data : list (list string)) (p h : string) :
  createHashMap data !! p = Some h <->
  exists before after,
    data = before ++ [h; p] :: after
    /\ Forall (fun line => forall h', line <> [h'; p]) after.
Proof.
  induction data as [|line data IH] using rev_ind.
  - split; [discriminate|]. intros (b & a & H & _). now destruct b.
  - rewrite createHashMap_snoc. 
    assert (Hcase : (exists h', line = [h'; p]) \/ (forall h', line <> [h'; p])).
    { destruct line as [|x [|y [|z l]]]; try (right; intros h'; discriminate).
      destruct (decide (y = p)) as [->|Hne]; [left; eauto | right; congruence]. }
    destruct Hcase as [[h' ->] | Hother].
    + cbn [add_row]. rewrite lookup_insert_eq. split.
      * intros [= ->]. exists data, []. split; [reflexivity | constructor].
      * intros (b & a & H & Ha).
        destruct a as [|x a _] using rev_ind.
        -- apply app_inj_tail in H as [_ H]. congruence.
        -- rewrite app_comm_cons, app_assoc in H. apply app_inj_tail in H as [_ H].
           apply Forall_app in Ha as [_ Ha]. inversion Ha; subst. 
           exfalso. eapply H2. reflexivity.
    + assert (Hadd : add_row (createHashMap data) line !! p = createHashMap data !! p).
      { destruct line as [|x [|y [|z l]]]; try reflexivity. cbn [add_row].
        apply lookup_insert_ne. intros ->. now apply (Hother x). }
      rewrite Hadd, IH. split.
      * intros (b & a & -> & Ha). exists b, (a ++ [line]). split.
        -- now rewrite <- app_assoc.
        -- apply Forall_app. split; [exact Ha | now constructor].
      * intros (b & a & H & Ha).
        destruct a as [|x a _] using rev_ind.
        -- apply app_inj_tail in H as [_ H]. subst. exfalso. now apply (Hother h).
        -- rewrite app_comm_cons, app_assoc in H. apply app_inj_tail in H as [-> _].
           apply Forall_app in Ha as [Ha _]. now exists b, a.
Qed.

End TableFacts.

(** ** Invariants of the file stream *)

Module TailerExtFacts.
Import Tailer TailerExt Samples MoreSamples.

Lemma extends_refl (p : string) (w : World) : extends p w w [].
Proof.
  unfold extends. rewrite app_nil_r. repeat split; [constructor | simpl; lia | auto].
Qed.

Lemma extends_trans (p : string) (w1 w2 w3 : World) (n1 n2 : list LogLine) :
  extends p w1 w2 n1 -> extends p w2 w3 n2 -> extends p w1 w3 (n1 ++ n2).
Proof.
  intros (L1 & F1 & C1 & D1) (L2 & F2 & C2 & D2). unfold extends.
  rewrite L2, L1, <- app_assoc. repeat split.
  - now apply Forall_app.
  - rewrite C2, C1, length_app. lia.
  - auto.
Qed.

Lemma sendLine_extends (p : string) (w : World) (part : list byte) :
  extends p w (fst (sendLine p (w, part))) [New p (string_of_list_byte part)]
  /\ snd (sendLine p (w, part)) = [].
Proof.
  unfold extends, sendLine. cbn. repeat split.
  - repeat constructor.
  - rewrite lookup_insert_eq. cbn. lia.
  - auto.
Qed.

Lemma flush_extends (p : string) (w : World) (part : list byte) :
  exists new, extends p w (fst (flush p (w, part))) new
    /\ (new = [] \/ part <> [] /\ new = [New p (string_of_list_byte part)])
    /\ snd (flush p (w, part)) = []
    /\ lastReadTime (fst (flush p (w, part))) = lastReadTime w.
Proof.
  unfold flush. cbn [snd]. destruct part as [|x part].
  - exists []. split; [apply extends_refl|]. split; [now left|]. now split.
  - exists [New p (string_of_list_byte (x :: part))]. split.
    + apply sendLine_extends.
    + split; [|now split]. right. split; [discriminate | reflexivity].
Qed.

Lemma on_rune_extends (p : string) (st : World * list byte) (r : rune) :
  exists new, extends p (fst st) (fst (on_rune p st r)) new
    /\ lastReadTime (fst (on_rune p st r)) = lastReadTime (fst st).
Proof.
  unfold on_rune. destruct (r =? 13); [|destruct (r =? 10)].
  - exists []. split; [apply extends_refl | reflexivity].
  - destruct st as [w part]. eexists. split; [apply sendLine_extends | reflexivity].
  - exists []. split; [apply extends_refl | reflexivity].
Qed.

Lemma fold_on_rune_extends (p : string) (rs : list rune) (st : World * list byte) :
  exists new, extends p (fst st) (fst (fold_left (on_rune p) rs st)) new
    /\ lastReadTime (fst (fold_left (on_rune p) rs st)) = lastReadTime (fst st).
Proof.
  revert st. induction rs as [|r rs IH]; intros st.
  - exists []. split; [apply extends_refl | reflexivity].
  - cbn [fold_left]. destruct (IH (on_rune p st r)) as (n2 & E2 & T2).
    destruct (on_rune_extends p st r) as (n1 & E1 & T1).
    exists (n1 ++ n2). split; [eapply extends_trans; eauto | congruence].
Qed.

Lemma decode_loop_fold (p : string) (n : Z) (b : list byte) :
  forall (fuel i : nat) (st st' : World * list byte),
    decode_loop fuel p n b i st = Some st' ->
    exists rs, st' = fold_left (on_rune p) rs st.
Proof.
  induction fuel as [|fuel IH]; intros i st st' H; cbn [decode_loop] in H.
  - destruct ((i <? length b)%nat && (Z.of_nat i <? n)); [discriminate|].
    injection H as <-. now exists [].
  - destruct ((i <? length b)%nat && (Z.of_nat i <? n)).
    + destruct (DecodeRune (drop i b)) as [r w].
      apply IH in H as (rs & ->). now exists (r :: rs).
    + injection H as <-. now exists [].
Qed.

Lemma decodeAndSend_extends (p : string) (n : Z) (b : list byte)
  (st : World * list byte) :
  let st' := default st (decodeAndSend p n b st) in
  exists new, extends p (fst st) (fst st') new
    /\ lastReadTime (fst st') = lastReadTime (fst st).
Proof.
  cbv zeta. unfold decodeAndSend.
  destruct (decode_loop _ _ _ _ _ _) as [st'|] eqn:H; cbn [default].
  - apply decode_loop_fold in H as (rs & ->). apply fold_on_rune_extends.
  - exists []. split; [apply extends_refl | reflexivity].
Qed.

Lemma set_completed_extends (p : string) (w : World) : extends p w (set_completed w) [].
Proof.
  unfold extends, set_completed. cbn. rewrite app_nil_r.
  repeat split; [constructor | lia].
Qed.

Lemma set_lastReadTime_extends (p : string) (w : World) (t : Z) :
  extends p w (set_lastReadTime w t) [].
Proof.
  unfold extends, set_lastReadTime. cbn. rewrite app_nil_r.
  repeat split; [constructor | lia | auto].
Qed.

Lemma extends_nil_r (p : string) (w1 w2 w3 : World) (n : list LogLine) :
  extends p w1 w2 n -> extends p w2 w3 [] -> extends p w1 w3 n.
Proof. intros H1 H2. rewrite <- (app_nil_r n). eapply extends_trans; eauto. Qed.

Lemma sleep_extends (p : string) (e : Env) (g : Goroutine) (st : World * list byte) :
  exists new, extends p (fst st) (fst (sleep p e g st)) new
    /\ (new = [] \/ snd st <> [] /\ new = [New p (string_of_list_byte (snd st))])
    /\ lastReadTime (fst (sleep p e g st)) = lastReadTime (fst st)
    /\ (forall sp, snd (sleep p e g st) = Exit sp ->
          sp = None /\ completed (fst (sleep p e g st)) = true)
    /\ (forall g', snd (sleep p e g st) = Loop g' ->
          fi g' = fi g /\ partial g' = snd st).
Proof.
  unfold sleep. destruct st as [w part].
  destruct (_ && _).
  - destruct (flush_extends p w part) as (new & E & Hnew & _ & T).
    destruct (flush p (w, part)) as [w' part'] eqn:Hf. cbn [fst snd] in *.
    exists new. split; [|split; [exact Hnew|split; [|split]]].
    + eapply extends_nil_r; [exact E | apply set_completed_extends].
    + exact T.
    + intros sp [= <-]. now split.
    + discriminate.
  - exists []. cbn [fst snd]. split; [apply extends_refl|].
    split; [now left|]. split; [reflexivity|]. split; [discriminate|].
    intros g' [= <-]. now split.
Qed.

(** The decoding stage of a pass: the lines completed by the bytes read
    are sent; without bytes nothing happens. *)
Lemma decoding_stage_extends (p : string) (e : Env) (w : World) (g : Goroutine) :
  let st := default (w, partial g)
              (decodeAndSend p (Z.of_nat (rd_count e))
                 (take (rd_count e) (rd_buf e)) (w, partial g)) in
  exists n0, extends p w (set_lastReadTime (fst st) (now e)) n0
             /\ lines (fst st) = lines w ++ n0.
Proof.
  cbv zeta.
  destruct (decodeAndSend_extends p (Z.of_nat (rd_count e))
              (take (rd_count e) (rd_buf e)) (w, partial g)) as (nd & Ed & Td).
  cbn [fst] in Ed. exists nd. split.
  - eapply extends_nil_r; [exact Ed | apply set_lastReadTime_extends].
  - apply Ed.
Qed.

Ltac leaf_quiet :=
  exists []; split; [apply extends_refl|]; split; [now left|];
  split; [reflexivity|];
  split; [ intros g' Hg'; try discriminate; injection Hg' as <-; cbn; auto
         | intros sp Hsp; try discriminate; injection Hsp as <-; eauto 12 ].

Ltac leaf_sleep :=
  match goal with
  | |- context [sleep ?p ?e ?g ?st] =>
      let n1 := fresh "n1" in
      destruct (sleep_extends p e g st) as (n1 & E1 & Hn1 & T1 & X1 & L1);
      exists n1; split; [exact E1|]; split; [exact Hn1|]; split; [exact T1|];
      split; [ intros g' Hg'; destruct (L1 g' Hg') as [Hfi Hpart]; split;
               [exact Hfi | left; exact Hpart]
             | intros sp Hsp; left; now apply X1 ]
  end.

Ltac leaf_flush :=
  match goal with
  | |- context [flush ?p (?w, ?part)] =>
      let n1 := fresh "n1" in
      destruct (flush_extends p w part) as (n1 & E1 & Hn1 & S1 & T1);
      destruct (flush p (w, part)) as [w' part'];
      cbn [fst snd] in *; exists n1;
      split; [first [exact E1
                    | eapply extends_nil_r; [exact E1 | apply set_completed_extends]]|];
      split; [exact Hn1|]; split; [exact T1|];
      split; [ intros g' Hg'; try discriminate; injection Hg' as <-; cbn; auto
             | intros sp Hsp; try discriminate; injection Hsp as <-; left; now split ]
  end.

(** What the rest of a pass does once the bytes read have been decoded
    into the state [s1]: it sends at most one more line, the pending
    text, and either loops with the same file or returns. *)
Lemma iteration_stages (p : string) (e : Env) (w : World) (g : Goroutine) :
  let s1 :=
    if (0 <? rd_count e)%nat
    then let st := default (w, partial g)
                     (decodeAndSend p (Z.of_nat (rd_count e))
                        (take (rd_count e) (rd_buf e)) (w, partial g)) in
         (set_lastReadTime (fst st) (now e), snd st)
    else (w, partial g) in
  exists n1,
    extends p (fst s1) (fst (iteration p e w g)) n1
    /\ (n1 = [] \/ snd s1 <> [] /\ n1 = [New p (string_of_list_byte (snd s1))])
    /\ lastReadTime (fst (iteration p e w g)) = lastReadTime (fst s1)
    /\ (forall g', snd (iteration p e w g) = Loop g' ->
          fi g' = fi g /\ (partial g' = snd s1 \/ partial g' = []))
    /\ (forall sp, snd (iteration p e w g) = Exit sp ->
          (sp = None /\ completed (fst (iteration p e w g)) = true)
          \/ (rd_err e = RESTALE /\ sp = spawn e (fi g))
          \/ (rd_count e = 0%nat /\ rd_err e = REOF
              /\ exists newfi, stat e = StatOk newfi
                   /\ SameFile (fi g) newfi = false /\ sp = spawn e newfi)).
Proof.
  cbv zeta. unfold iteration.
  destruct (Nat.ltb_spec 0 (rd_count e)) as [Hpos | Hzero].
  - assert (Hnz : (rd_count e =? 0)%nat = false) by (apply Nat.eqb_neq; lia).
    cbn [fst snd fi partial total].
    destruct (rd_err e) eqn:Herr; rewrite ?Hnz; cbn [negb].
    + destruct (ctx_cancelled e) eqn:Hc; cbn [negb]; [leaf_sleep | leaf_quiet].
    + leaf_sleep.
    + leaf_quiet.
    + leaf_sleep.
  - assert (Hc0 : rd_count e = 0%nat) by lia.
    assert (Hz : (rd_count e =? 0)%nat = true) by (apply Nat.eqb_eq; lia).
    cbn [fst snd].
    destruct (rd_err e) eqn:Herr; rewrite ?Hz.
    + destruct (ctx_cancelled e) eqn:Hc; cbn [negb]; [leaf_sleep | leaf_quiet].
    + destruct (stat e) as [| |newfi] eqn:Hstat.
      * leaf_flush.
      * leaf_sleep.
      * destruct (SameFile (fi g) newfi) eqn:Hsame; cbn [negb].
        -- destruct (seek_cur e) as [off|].
           ++ destruct (fsize newfi <? off); [leaf_flush | leaf_sleep].
           ++ leaf_quiet.
        -- leaf_quiet.
    + leaf_quiet.
    + leaf_sleep.
Qed.

(** *** Lines never contain a line terminator *)

Lemma bz_zb (z : Z) : bz (zb z) = z mod 256.
Proof.
  unfold bz, zb. pose proof (Z.mod_pos_bound z 256 ltac:(lia)) as Hr.
  destruct (Byte.of_N (Z.to_N (z mod 256))) as [b|] eqn:Hb.
  - apply Byte.to_of_N in Hb. rewrite Hb. lia.
  - apply Byte.of_N_None_iff in Hb. lia.
Qed.

Lemma lor_bound (a b : Z) : 0 <= a -> 0 <= b -> 0 <= Z.lor a b <= a + b.
Proof.
  intros Ha Hb. pose proof (Z.add_lor_land a b) as H.
  assert (0 <= Z.land a b) by (apply Z.land_nonneg; now left).
  assert (0 <= Z.lor a b) by now apply Z.lor_nonneg.
  lia.
Qed.

Lemma land_byte_bound (x : byte) :
  0 <= Z.land (bz x) maskx <= 63 /\ 0 <= Z.land (bz x) mask2 <= 31
  /\ 0 <= Z.land (bz x) mask3 <= 15 /\ 0 <= Z.land (bz x) mask4 <= 7.
Proof. destruct x; vm_compute; repeat split; congruence. Qed.

(** Every rune that [DecodeRune] returns fits in 21 bits. *)
Lemma DecodeRune_range (p : list byte) : 0 <= fst (DecodeRune p) < 2 ^ 21.
Proof.
  assert (HE : 0 <= RuneError < 2 ^ 21) by (unfold RuneError; lia).
  unfold DecodeRune. destruct p as [|p0 rest]; [exact HE|].
  destruct (first (bz p0)) as [| |sz lo hi] eqn:Hf.
  - cbn [fst]. unfold first in Hf. pose proof (TailerFacts.bz_range p0).
    destruct (Z.ltb_spec (bz p0) 0x80); [lia|].
    repeat (destruct (_ <? _) || destruct (_ =? _)); discriminate.
  - exact HE.
  - destruct (_ <? _)%nat; [exact HE|].
    destruct rest as [|b1 rest1]; [exact HE|].
    destruct (_ || _); [exact HE|].
    pose proof (land_byte_bound p0) as (_ & P2 & P3 & P4).
    pose proof (land_byte_bound b1) as (B1 & _).
    destruct (_ <=? _)%nat.
    { cbn [fst]. rewrite Z.shiftl_mul_pow2 by lia.
      pose proof (lor_bound (Z.land (bz p0) mask2 * 2 ^ 6) (Z.land (bz b1) maskx)).
      lia. }
    destruct rest1 as [|b2 rest2]; [exact HE|].
    destruct (_ || _); [exact HE|].
    pose proof (land_byte_bound b2) as (B2 & _).
    destruct (_ <=? _)%nat.
    { cbn [fst]. rewrite !Z.shiftl_mul_pow2 by lia.
      pose proof (lor_bound (Z.land (bz p0) mask3 * 2 ^ 12)
                    (Z.land (bz b1) maskx * 2 ^ 6)).
      pose proof (lor_bound (Z.lor (Z.land (bz p0) mask3 * 2 ^ 12)
                               (Z.land (bz b1) maskx * 2 ^ 6))
                    (Z.land (bz b2) maskx)).
      lia. }
    destruct rest2 as [|b3 rest3]; [exact HE|].
    destruct (_ || _); [exact HE|].
    pose proof (land_byte_bound b3) as (B3 & _).
    cbn [fst]. rewrite !Z.shiftl_mul_pow2 by lia.
    pose proof (lor_bound (Z.land (bz p0) mask4 * 2 ^ 18)
                  (Z.land (bz b1) maskx * 2 ^ 12)).
    pose proof (lor_bound (Z.lor (Z.land (bz p0) mask4 * 2 ^ 18)
                             (Z.land (bz b1) maskx * 2 ^ 12))
                  (Z.land (bz b2) maskx * 2 ^ 6)).
    pose proof (lor_bound (Z.lor (Z.lor (Z.land (bz p0) mask4 * 2 ^ 18)
                                    (Z.land (bz b1) maskx * 2 ^ 12))
                             (Z.land (bz b2) maskx * 2 ^ 6))
                  (Z.land (bz b3) maskx)).
    lia.
Qed.

(** The bytes that [AppendRune] writes for a rune outside ASCII all have
    their high bit set. *)
Lemma lead_byte_high (y : byte) :
  128 <= bz (zb (Z.lor t2 (bz y))) /\ 128 <= bz (zb (Z.lor t3 (bz y)))
  /\ 128 <= bz (zb (Z.lor t4 (bz y)))
  /\ 128 <= bz (zb (Z.lor tx (Z.land (bz y) maskx))).
Proof. destruct y; vm_compute; repeat split; congruence. Qed.

Lemma clean_snoc (buf : list byte) (x : byte) :
  clean buf -> bz x <> 10 -> bz x <> 13 -> clean (buf ++ [x]).
Proof.
  intros Hb H10 H13. apply Forall_app. split; [exact Hb|].
  constructor; [now split | constructor].
Qed.

Lemma clean_snoc_high (buf : list byte) (x : byte) :
  clean buf -> 128 <= bz x -> clean (buf ++ [x]).
Proof. intros Hb Hx. apply clean_snoc; [exact Hb | lia | lia]. Qed.

Lemma WriteRune_clean (buf : list byte) (r : rune) :
  clean buf -> 0 <= r < 2 ^ 32 -> r <> 10 -> r <> 13 -> clean (WriteRune buf r).
Proof.
  intros Hb Hr H10 H13.
  assert (Hsmall : r <= 0x7F -> clean (buf ++ [zb r])).
  { intros Hs. apply clean_snoc; [exact Hb | |];
      rewrite bz_zb, Z.mod_small by lia; assumption. }
  assert (Hlist : forall l, Forall (fun x => 128 <= bz x) l -> clean (buf ++ l)).
  { intros l Hl. apply Forall_app. split; [exact Hb|].
    eapply Forall_impl; [exact Hl|]. cbn. intros x Hx. lia. }
  unfold WriteRune, AppendRune, RuneSelf. rewrite Z.mod_small by exact Hr.
  destruct (Z.ltb_spec r 0x80); [apply Hsmall; lia|].
  destruct (Z.leb_spec r 0x7F); [lia|].
  destruct (r <=? 0x7FF).
  { apply Hlist. repeat constructor; apply lead_byte_high. }
  destruct (_ || _).
  { apply Hlist. repeat constructor; apply lead_byte_high. }
  destruct (r <=? 0xFFFF); apply Hlist; repeat constructor; apply lead_byte_high.
Qed.

Lemma sendLine_clean (p : string) (w : World) (part : list byte) :
  clean part -> clean_line (New p (string_of_list_byte part)).
Proof.
  intros H. unfold clean_line. cbn [Line].
  now rewrite list_byte_of_string_of_list_byte.
Qed.

Lemma on_rune_clean (p : string) (st : World * list byte) (r : rune) :
  clean (snd st) -> 0 <= r < 2 ^ 32 ->
  exists new, lines (fst (on_rune p st r)) = lines (fst st) ++ new
    /\ Forall clean_line new /\ clean (snd (on_rune p st r)).
Proof.
  intros Hc Hr. unfold on_rune.
  destruct (Z.eqb_spec r 13) as [-> | H13].
  - exists []. rewrite app_nil_r. repeat split; [constructor | exact Hc].
  - destruct (Z.eqb_spec r 10) as [-> | H10].
    + destruct st as [w part]. exists [New p (string_of_list_byte part)].
      cbn. repeat split; [|constructor].
      constructor; [now apply sendLine_clean | constructor].
    + exists []. cbn [fst snd]. rewrite app_nil_r.
      repeat split; [constructor | now apply WriteRune_clean].
Qed.

Lemma fold_on_rune_clean (p : string) (rs : list rune) (st : World * list byte) :
  clean (snd st) -> Forall (fun r => 0 <= r < 2 ^ 32) rs ->
  exists new, lines (fst (fold_left (on_rune p) rs st)) = lines (fst st) ++ new
    /\ Forall clean_line new /\ clean (snd (fold_left (on_rune p) rs st)).
Proof.
  intros Hc Hrs. revert st Hc.
  induction Hrs as [|r rs Hr _ IH]; intros st Hc.
  - exists []. cbn [fold_left]. rewrite app_nil_r. repeat split; [constructor | exact Hc].
  - cbn [fold_left].
    destruct (on_rune_clean p st r Hc Hr) as (n1 & L1 & F1 & C1).
    destruct (IH (on_rune p st r) C1) as (n2 & L2 & F2 & C2).
    exists (n1 ++ n2). rewrite L2, L1, <- app_assoc.
    repeat split; [now apply Forall_app | exact C2].
Qed.

Lemma decode_loop_fold_range (p : string) (n : Z) (b : list byte) :
  forall (fuel i : nat) (st st' : World * list byte),
    decode_loop fuel p n b i st = Some st' ->
    exists rs, st' = fold_left (on_rune p) rs st
               /\ Forall (fun r => 0 <= r < 2 ^ 32) rs.
Proof.
  induction fuel as [|fuel IH]; intros i st st' H; cbn [decode_loop] in H.
  - destruct ((i <? length b)%nat && (Z.of_nat i <? n)); [discriminate|].
    injection H as <-. exists []. now split.
  - destruct ((i <? length b)%nat && (Z.of_nat i <? n)).
    + pose proof (DecodeRune_range (drop i b)) as Hr.
      destruct (DecodeRune (drop i b)) as [r w]. cbn [fst] in Hr.
      apply IH in H as (rs & -> & Hrs). exists (r :: rs). split; [reflexivity|].
      constructor; [lia | exact Hrs].
    + injection H as <-. exists []. now split.
Qed.

Lemma decodeAndSend_clean (p : string) (n : Z) (b : list byte)
  (st : World * list byte) :
  clean (snd st) ->
  let st' := default st (decodeAndSend p n b st) in
  exists new, lines (fst st') = lines (fst st) ++ new
    /\ Forall clean_line new /\ clean (snd st').
Proof.
  intros Hc. cbv zeta. unfold decodeAndSend.
  destruct (decode_loop _ _ _ _ _ _) as [st'|] eqn:H; cbn [default].
  - apply decode_loop_fold_range in H as (rs & -> & Hrs).
    now apply fold_on_rune_clean.
  - exists []. rewrite app_nil_r. repeat split; [constructor | exact Hc].
Qed.

Lemma spawn_partial (e : Env) (f : FileInfo) (g' : Goroutine) :
  spawn e f = Some g' -> partial g' = [] /\ fi g' = f /\ total g' = 0.
Proof. unfold spawn. destruct (open_ok e); [|discriminate]. now intros [= <-]. Qed.

Lemma iteration_clean (p : string) (e : Env) (w : World) (g : Goroutine) :
  clean (partial g) ->
  exists new, lines (fst (iteration p e w g)) = lines w ++ new
    /\ Forall clean_line new
    /\ (forall g', snd (iteration p e w g) = Loop g' -> clean (partial g'))
    /\ (forall g', snd (iteration p e w g) = Exit (Some g') -> clean (partial g')).
Proof.
  intros Hc.
  destruct (iteration_stages p e w g) as (n1 & E1 & Hn1 & _ & HL & HX).
  assert (Hspawn : forall g', snd (iteration p e w g) = Exit (Some g') ->
                              clean (partial g')).
  { intros g' Hg'. destruct (HX _ Hg') as [[? _] | [[_ Hs] | (_ & _ & f & _ & _ & Hs)]].
    - discriminate.
    - symmetry in Hs. apply spawn_partial in Hs as [-> _]. constructor.
    - symmetry in Hs. apply spawn_partial in Hs as [-> _]. constructor. }
  destruct (0 <? rd_count e)%nat.
  - destruct (decodeAndSend_clean p (Z.of_nat (rd_count e))
                (take (rd_count e) (rd_buf e)) (w, partial g) Hc)
      as (n0 & L0 & F0 & C0).
    cbn [fst snd] in *. destruct E1 as (L1 & _).
    cbn [set_lastReadTime lines] in L1.
    exists (n0 ++ n1). rewrite L1, L0, <- app_assoc. split; [reflexivity|].
    split; [|split; [|exact Hspawn]].
    + apply Forall_app. split; [exact F0|].
      destruct Hn1 as [-> | [_ ->]]; [constructor|].
      constructor; [now apply sendLine_clean | constructor].
    + intros g' Hg'. destruct (HL g' Hg') as [_ [-> | ->]]; [exact C0 | constructor].
  - cbn [fst snd] in *. destruct E1 as (L1 & _).
    exists n1. split; [exact L1|]. split; [|split; [|exact Hspawn]].
    + destruct Hn1 as [-> | [_ ->]]; [constructor|].
      constructor; [now apply sendLine_clean | constructor].
    + intros g' Hg'. destruct (HL g' Hg') as [_ [-> | ->]]; [exact Hc | constructor].
Qed.

Lemma run_pass_clean (p : string) (k : nat) (e : Env) (s s' : System) :
  Forall (fun g => clean (partial g)) (running s) ->
  run_pass p k e s = Some s' ->
  exists new, lines (world s') = lines (world s) ++ new
    /\ Forall clean_line new
    /\ Forall (fun g => clean (partial g)) (running s').
Proof.
  intros Hall Hrun. unfold run_pass in Hrun.
  destruct (running s !! k) as [g|] eqn:Hk; [|discriminate]. cbn in Hrun.
  assert (Hg : clean (partial g)).
  { rewrite Forall_lookup in Hall. exact (Hall k g Hk). }
  destruct (iteration_clean p e (world s) g Hg) as (new & L & F & HL & HX).
  destruct (iteration p e (world s) g) as [w nxt]. cbn [fst snd] in *.
  injection Hrun as <-. cbn [world running]. exists new.
  split; [exact L|]. split; [exact F|].
  destruct nxt as [g' | [g'|]].
  - apply Forall_insert; [exact Hall | now apply HL].
  - apply Forall_app. split; [now apply Forall_delete|].
    constructor; [now apply HX | constructor].
  - now apply Forall_delete.
Qed.

Lemma run_pass_extends (p : string) (k : nat) (e : Env) (s s' : System) :
  run_pass p k e s = Some s' ->
  exists new, extends p (world s) (world s') new.
Proof.
  intros Hrun. unfold run_pass in Hrun.
  destruct (running s !! k) as [g|]; [|discriminate]. cbn in Hrun.
  destruct (iteration_stages p e (world s) g) as (n1 & E1 & _).
  destruct (decoding_stage_extends p e (world s) g) as (n0 & E0 & _).
  destruct (iteration p e (world s) g) as [w nxt]. cbn [fst snd] in *.
  injection Hrun as <-. cbn [world].
  destruct (0 <? rd_count e)%nat; cbn [fst] in E1.
  - exists (n0 ++ n1). eapply extends_trans; eauto.
  - exists n1. exact E1.
Qed.

(** *** What a stream does over a whole run *)

(** X20.  Over any run of the goroutines of one file stream, whatever
    the reads, stats and signals: the channel is only appended to, every
    line sent names the file of the stream, the [log_lines_total] counter
    of the file grows by exactly the number of lines sent, and
    [IsComplete], once true, stays true. *)
Theorem stream_only_appends_its_own_lines (pathname : string) (s s' : System) :
  steps pathname s s' ->
  exists new,
    lines (world s') = lines (world s) ++ new
    /\ Forall (fun l => Filename l = pathname) new
    /\ default 0 (logLines (world s') !! pathname)
       = default 0 (logLines (world s) !! pathname) + Z.of_nat (length new)
    /\ (IsComplete (world s) = true -> IsComplete (world s') = true).
Proof.
  intros H. change (exists new, extends pathname (world s) (world s') new).
  induction H as [s | s1 s2 s3 Hstep _ (n2 & E2)].
  - exists []. apply extends_refl.
  - destruct Hstep as [k e sa sb Hrun].
    destruct (run_pass_extends _ _ _ _ _ Hrun) as (n1 & E1).
    exists (n1 ++ n2). eapply extends_trans; eauto.
Qed.

Lemma stream_only_appends_its_own_lines_witness :
  exists s' new,
    after_reading = Some s'
    /\ lines (world s') = lines (world before_rotation) ++ new
    /\ length new = 3%nat
    /\ logLines (world s') !! "a.log" = Some 3
    /\ IsComplete (world s') = true.
Proof.
  destruct (run_pass "a.log" 0 data_read before_rotation) as [s1|] eqn:H1;
    [|discriminate H1].
  destruct (run_pass "a.log" 0 stop_at_eof s1) as [s2|] eqn:H2.
  - destruct (stream_only_appends_its_own_lines "a.log" before_rotation s2)
      as (new & L & _ & C & _).
    + eapply steps_cons; [econstructor; exact H1|].
      eapply steps_cons; [econstructor; exact H2 | apply steps_refl].
    + exists s2, new. unfold after_reading. rewrite H1, H2.
      injection H1 as <-. injection H2 as <-.
      split; [reflexivity|]. split; [exact L|].
      apply (f_equal (@length LogLine)) in L. rewrite length_app in L.
      repeat split; vm_compute in L; vm_compute; congruence.
  - injection H1 as <-. discriminate H2.
Defined.

(** X21.  No line that a stream sends contains a newline or a carriage
    return, in any run that starts with pending texts free of them (as
    the empty buffer of a new goroutine is); and the pending texts stay
    free of them. *)
Theorem stream_lines_hold_no_line_terminator (pathname : string) (s s' : System) :
  Forall (fun g => clean (partial g)) (running s) ->
  steps pathname s s' ->
  exists new,
    lines (world s') = lines (world s) ++ new
    /\ Forall clean_line new
    /\ Forall (fun g => clean (partial g)) (running s').
Proof.
  intros Hall H. induction H as [s | s1 s2 s3 Hstep _ IH].
  - exists []. rewrite app_nil_r. repeat split; [constructor | exact Hall].
  - destruct Hstep as [k e sa sb Hrun].
    destruct (run_pass_clean _ _ _ _ _ Hall Hrun) as (n1 & L1 & F1 & A1).
    destruct (IH A1) as (n2 & L2 & F2 & A2).
    exists (n1 ++ n2). rewrite L2, L1, <- app_assoc.
    repeat split; [now apply Forall_app | exact A2].
Qed.

Lemma stream_lines_hold_no_line_terminator_witness :
  exists s', after_reading = Some s' /\ Forall clean_line (lines (world s')).
Proof.
  destruct (run_pass "a.log" 0 data_read before_rotation) as [s1|] eqn:H1;
    [|discriminate H1].
  destruct (run_pass "a.log" 0 stop_at_eof s1) as [s2|] eqn:H2.
  - destruct (stream_lines_hold_no_line_terminator "a.log" before_rotation s2)
      as (new & L & F & _).
    + repeat constructor; vm_compute; congruence.
    + eapply steps_cons; [econstructor; exact H1|].
      eapply steps_cons; [econstructor; exact H2 | apply steps_refl].
    + exists s2. unfold after_reading. rewrite H1, H2.
      split; [reflexivity|]. rewrite L. exact F.
  - injection H1 as <-. discriminate H2.
Defined.

(** X22.  A pass sets the last read time of the stream to the clock
    exactly when its read returned bytes; every other pass, whichever way
    it ends, leaves it as it was. *)
Theorem read_time_moves_only_with_bytes (pathname : string) (e : Env)
  (w : World) (g : Goroutine) :
  lastReadTime (fst (iteration pathname e w g))
  = if (0 <? rd_count e)%nat then now e else lastReadTime w.
Proof.
  destruct (iteration_stages pathname e w g) as (n1 & _ & _ & T & _).
  rewrite T. now destruct (0 <? rd_count e)%nat.
Qed.

(** X23.  A pass whose read returned no byte sends nothing, or exactly
    one line: the pending text, which is then not empty.  It never sends
    an empty line, and the goroutine goes on with the pending text or
    with an empty buffer. *)
Theorem pass_without_bytes_sends_at_most_the_pending_text (pathname : string)
  (e : Env) (w : World) (g : Goroutine) :
  rd_count e = 0%nat ->
  (lines (fst (iteration pathname e w g)) = lines w
   \/ partial g <> []
      /\ lines (fst (iteration pathname e w g))
         = lines w ++ [New pathname (string_of_list_byte (partial g))])
  /\ (forall g', snd (iteration pathname e w g) = Loop g' ->
        fi g' = fi g /\ (partial g' = partial g \/ partial g' = [])).
Proof.
  intros Hc.
  destruct (iteration_stages pathname e w g) as (n1 & E1 & Hn1 & _ & HL & _).
  rewrite Hc in *. cbn [Nat.ltb Nat.leb fst snd] in *.
  destruct E1 as (L & _). split; [|exact HL].
  destruct Hn1 as [-> | [Hne ->]].
  - left. now rewrite L, app_nil_r.
  - right. now split.
Qed.

Lemma pass_without_bytes_sends_at_most_the_pending_text_witness :
  lines (fst (iteration "a.log" stop_at_eof fresh_world
                (MkGoroutine old_file [Byte.x78] 1)))
  = [New "a.log" "x"].
Proof.
  destruct (pass_without_bytes_sends_at_most_the_pending_text "a.log" stop_at_eof
              fresh_world (MkGoroutine old_file [Byte.x78] 1) eq_refl)
    as [[H | [_ H]] _].
  - vm_compute in H. discriminate H.
  - exact H.
Defined.

(** X24.  A goroutine of the stream returns in three situations only:
    having marked the stream completed, without a successor; after the
    read failed with [ESTALE], handing over to a goroutine that re-opens
    the same file; or on a rotation seen at end of file, handing over to
    a goroutine on the new file.  A hand-over whose open fails leaves
    the stream without a goroutine and not completed. *)
Theorem goroutine_returns_completed_or_hands_over (pathname : string) (e : Env)
  (w : World) (g : Goroutine) (sp : option Goroutine) :
  snd (iteration pathname e w g) = Exit sp ->
  (sp = None /\ IsComplete (fst (iteration pathname e w g)) = true)
  \/ (rd_err e = RESTALE /\ sp = spawn e (fi g))
  \/ (rd_count e = 0%nat /\ rd_err e = REOF
      /\ exists newfi, stat e = StatOk newfi
           /\ SameFile (fi g) newfi = false /\ sp = spawn e newfi).
Proof.
  intros H.
  destruct (iteration_stages pathname e w g) as (n1 & _ & _ & _ & _ & HX).
  exact (HX sp H).
Qed.

Lemma goroutine_returns_completed_or_hands_over_witness :
  IsComplete (fst (iteration "a.log" stop_at_eof fresh_world
                     (MkGoroutine old_file [Byte.x78] 1))) = true.
Proof.
  destruct (goroutine_returns_completed_or_hands_over "a.log" stop_at_eof
              fresh_world (MkGoroutine old_file [Byte.x78] 1) None eq_refl)
    as [[_ H] | [[H _] | (_ & _ & f & Hs & H & _)]].
  - exact H.
  - discriminate H.
  - cbn in Hs. injection Hs as <-. discriminate H.
Defined.

(** *** Text that arrives in several reads *)

Lemma runes_ascii_app (b1 b2 : list byte) :
  Forall (fun x => bz x < 0x80) b1 -> runes (b1 ++ b2) = map bz b1 ++ runes b2.
Proof.
  induction 1 as [|x b1 Hx _ IH]; [reflexivity|].
  cbn [app map]. rewrite TailerFacts.runes_cons.
  rewrite TailerFacts.DecodeRune_ascii by exact Hx.
  change (bz x :: runes (b1 ++ b2) = bz x :: map bz b1 ++ runes b2).
  now rewrite IH.
Qed.

Lemma decodeAndSend_fold (pathname : string) (b : list byte)
  (st : World * list byte) :
  decodeAndSend pathname (Z.of_nat (length b)) b st
  = Some (fold_left (on_rune pathname) (runes b) st).
Proof.
  unfold decodeAndSend.
  rewrite (TailerFacts.decode_loop_runes pathname _ b) by lia.
  now rewrite drop_0.
Qed.

(** X25.  Text that arrives in two reads gives the same lines and the
    same pending text as if it had arrived in one, when the first read
    is ASCII: the partial buffer carries an unfinished line over to the
    next read. *)
Theorem decodeAndSend_ascii_chunks (pathname : string) (b1 b2 : list byte)
  (st : World * list byte) :
  Forall (fun x => bz x < 0x80) b1 ->
  match decodeAndSend pathname (Z.of_nat (length b1)) b1 st with
  | Some st1 => decodeAndSend pathname (Z.of_nat (length b2)) b2 st1
  | None => None
  end
  = decodeAndSend pathname (Z.of_nat (length (b1 ++ b2))) (b1 ++ b2) st.
Proof.
  intros H. rewrite !decodeAndSend_fold, runes_ascii_app by exact H.
  rewrite fold_left_app, (TailerFacts.runes_ascii b1) by exact H.
  reflexivity.
Qed.

Lemma decodeAndSend_ascii_chunks_witness :
  match decodeAndSend "a.log" 2 [Byte.x61; Byte.x62] (fresh_world, []) with
  | Some st1 => decodeAndSend "a.log" 2 [Byte.x63; Byte.x0a] st1
  | None => None
  end
  = Some (sendLine "a.log" (fresh_world, [Byte.x61; Byte.x62; Byte.x63])).
Proof.
  etransitivity.
  - apply (decodeAndSend_ascii_chunks "a.log" [Byte.x61; Byte.x62]
             [Byte.x63; Byte.x0a] (fresh_world, [])).
    repeat constructor.
  - reflexivity.
Defined.

(** X26.  A rune is not carried over from one read to the next: a read
    that delivers a single byte outside ASCII, whichever it is, appends
    the replacement character U+FFFD to the pending text.  A rune whose
    bytes arrive in two reads is therefore lost. *)
Theorem lone_high_byte_is_replaced (pathname : string) (x : byte) (w : World)
  (part : list byte) :
  0x80 <= bz x ->
  decodeAndSend pathname 1 [x] (w, part)
  = Some (w, part ++ [Byte.xef; Byte.xbf; Byte.xbd]).
Proof.
  intros H. destruct x; try reflexivity; vm_compute in H; now elim H.
Qed.

Lemma lone_high_byte_is_replaced_witness :
  decodeAndSend "a.log" 1 [Byte.xa9] (fresh_world, [Byte.xef; Byte.xbf; Byte.xbd])
  = Some (fresh_world, [Byte.xef; Byte.xbf; Byte.xbd; Byte.xef; Byte.xbf; Byte.xbd]).
Proof.
  apply (lone_high_byte_is_replaced "a.log" Byte.xa9 fresh_world
           [Byte.xef; Byte.xbf; Byte.xbd]).
  vm_compute. congruence.
Defined.

(** *** Well-formed text passes through unchanged *)

Lemma land_shifted_low (a b n : Z) :
  0 <= n -> 0 <= b < 2 ^ n -> Z.land (a * 2 ^ n) b = 0.
Proof.
  intros Hn Hb. apply Z.bits_inj'. intros i Hi.
  rewrite Z.land_spec, Z.bits_0.
  destruct (Z.lt_ge_cases i n) as [Hlt | Hge].
  - rewrite Z.mul_pow2_bits_low by lia. reflexivity.
  - destruct (Z.eq_dec b 0) as [-> | Hb0]; [now rewrite Z.bits_0, andb_false_r|].
    rewrite (Z.bits_above_log2 b i); [apply andb_false_r | lia |].
    apply Z.log2_lt_pow2; [lia|].
    apply Z.lt_le_trans with (2 ^ n); [lia|].
    apply Z.pow_le_mono_r; lia.
Qed.

Lemma lor_add (a b n : Z) :
  0 <= n -> 0 <= b < 2 ^ n -> Z.lor (a * 2 ^ n) b = a * 2 ^ n + b.
Proof.
  intros Hn Hb. pose proof (Z.add_lor_land (a * 2 ^ n) b) as H.
  rewrite land_shifted_low in H by assumption. lia.
Qed.

Lemma land_masks (x : Z) :
  Z.land x maskx = x mod 64 /\ Z.land x mask2 = x mod 32
  /\ Z.land x mask3 = x mod 16 /\ Z.land x mask4 = x mod 8.
Proof.
  change maskx with (Z.ones 6). change mask2 with (Z.ones 5).
  change mask3 with (Z.ones 4). change mask4 with (Z.ones 3).
  rewrite !Z.land_ones by lia. repeat split.
Qed.

(** The continuation byte that [AppendRune] writes for the six bits of
    [v] is the byte [y] these bits were decoded from. *)
Lemma continuation_byte (v : Z) (y : byte) :
  128 <= bz y <= 191 -> v mod 64 = bz y - 128 ->
  zb (Z.lor tx (Z.land (bz (zb v)) maskx)) = y.
Proof.
  intros Hy Hv. rewrite bz_zb. destruct (land_masks (v mod 256)) as (-> & _).
  replace (v mod 256 mod 64) with (bz y - 128)
    by (rewrite <- Hv; Z.div_mod_to_equations; lia).
  change tx with (2 * 2 ^ 6). rewrite lor_add by lia.
  replace (2 * 2 ^ 6 + (bz y - 128)) with (bz y) by lia. apply TailerFacts.zb_bz.
Qed.

Lemma leading_byte (t v k : Z) (y : byte) :
  0 <= k -> 0 <= v < 2 ^ k -> 0 <= t -> t mod 2 ^ k = 0 -> bz y = t + v ->
  zb (Z.lor t (bz (zb v))) = y.
Proof.
  intros Hk Hv Ht0 Ht Hy. rewrite bz_zb.
  pose proof (TailerFacts.bz_range y) as Hr.
  assert (Hd : t = t / 2 ^ k * 2 ^ k).
  { pose proof (Z.div_mod t (2 ^ k) ltac:(lia)). lia. }
  rewrite Z.mod_small by lia.
  rewrite Hd, lor_add by lia. rewrite <- Hd, <- Hy. apply TailerFacts.zb_bz.
Qed.

(** What the table [first] accepts as the leading byte of a sequence of
    two, three or four bytes, with the range it then asks of the second
    byte. *)
Lemma first_multi (x : Z) (sz : nat) (lo hi : Z) :
  first x = FMulti sz lo hi ->
  128 <= lo /\ hi <= 191
  /\ ((sz = 2%nat /\ 0xC2 <= x < 0xE0)
      \/ (sz = 3%nat /\ 0xE0 <= x < 0xF0
          /\ (x = 0xE0 -> 0xA0 <= lo) /\ (x = 0xED -> hi <= 0x9F))
      \/ (sz = 4%nat /\ 0xF0 <= x <= 0xF4
          /\ (x = 0xF0 -> 0x90 <= lo) /\ (x = 0xF4 -> hi <= 0x8F))).
Proof.
  unfold first, locb, hicb.
  repeat match goal with
         | |- context [?a <? ?b] => destruct (Z.ltb_spec a b)
         | |- context [?a =? ?b] => destruct (Z.eqb_spec a b)
         end;
    intros Hf; try discriminate Hf; injection Hf as <- <- <-;
    (split; [lia|]; split; [lia|]);
    first [ left; split; [reflexivity | lia]
          | right; left; split; [reflexivity|]; split; [lia|]; split; intros; lia
          | right; right; split; [reflexivity|]; split; [lia|]; split; intros; lia ].
Qed.

Lemma WriteRune_app (buf : list byte) (r : rune) :
  WriteRune buf r = buf ++ WriteRune [] r.
Proof.
  unfold WriteRune, AppendRune.
  repeat match goal with
         | |- context [if ?c then _ else _] => destruct c
         end; reflexivity.
Qed.

Ltac split_ranges :=
  repeat match goal with
         | |- context [?a <? ?b] => destruct (Z.ltb_spec a b)
         end; cbn [orb].

(** The four shapes of a well-formed sequence. *)
Lemma well_formed_cases (q : list byte) :
  well_formed q = true ->
  (exists x, q = [x] /\ bz x < 128)
  \/ (exists p0 b1, q = [p0; b1] /\ 0xC2 <= bz p0 < 0xE0 /\ 128 <= bz b1 <= 191)
  \/ (exists p0 b1 b2, q = [p0; b1; b2] /\ 0xE0 <= bz p0 < 0xF0
        /\ 128 <= bz b1 <= 191 /\ (bz p0 = 0xE0 -> 0xA0 <= bz b1)
        /\ (bz p0 = 0xED -> bz b1 <= 0x9F) /\ 128 <= bz b2 <= 191)
  \/ (exists p0 b1 b2 b3, q = [p0; b1; b2; b3] /\ 0xF0 <= bz p0 <= 0xF4
        /\ 128 <= bz b1 <= 191 /\ (bz p0 = 0xF0 -> 0x90 <= bz b1)
        /\ (bz p0 = 0xF4 -> bz b1 <= 0x8F) /\ 128 <= bz b2 <= 191
        /\ 128 <= bz b3 <= 191).
Proof.
  destruct q as [|p0 [|b1 [|b2 [|b3 [|b4 rest]]]]]; cbn [well_formed].
  - discriminate.
  - intros H. left. exists p0. split; [reflexivity|].
    unfold RuneSelf in H. lia.
  - unfold DecodeRune. destruct (first (bz p0)) as [| |sz lo hi] eqn:Hf;
      [discriminate | discriminate |].
    apply first_multi in Hf
      as (Hlo & Hhi & [(-> & Hx) | [(-> & Hx & Hl & Hh) | (-> & Hx & Hl & Hh)]]);
      cbn [length Nat.ltb Nat.leb]; try discriminate.
    split_ranges; try discriminate. intros _. right. left.
    exists p0, b1. repeat split; lia.
  - unfold DecodeRune. destruct (first (bz p0)) as [| |sz lo hi] eqn:Hf;
      [discriminate | discriminate |].
    apply first_multi in Hf
      as (Hlo & Hhi & [(-> & Hx) | [(-> & Hx & Hl & Hh) | (-> & Hx & Hl & Hh)]]);
      cbn [length Nat.ltb Nat.leb]; try discriminate.
    + split_ranges; discriminate.
    + unfold locb, hicb. split_ranges; try discriminate. intros _. right. right. left.
      exists p0, b1, b2. repeat split; lia.
  - unfold DecodeRune. destruct (first (bz p0)) as [| |sz lo hi] eqn:Hf;
      [discriminate | discriminate |].
    apply first_multi in Hf
      as (Hlo & Hhi & [(-> & Hx) | [(-> & Hx & Hl & Hh) | (-> & Hx & Hl & Hh)]]);
      cbn [length Nat.ltb Nat.leb]; try discriminate.
    + split_ranges; discriminate.
    + unfold locb, hicb. split_ranges; discriminate.
    + unfold locb, hicb. split_ranges; try discriminate. intros _. right. right. right.
      exists p0, b1, b2, b3. repeat split; lia.
  - unfold DecodeRune. destruct (first (bz p0)) as [| |sz lo hi] eqn:Hf;
      [discriminate | discriminate |].
    apply first_multi in Hf
      as (Hlo & Hhi & [(-> & Hx) | [(-> & Hx & Hl & Hh) | (-> & Hx & Hl & Hh)]]);
      cbn [length Nat.ltb Nat.leb]; unfold locb, hicb; split_ranges; discriminate.
Qed.

Lemma assemble2 (m0 m1 : Z) :
  0 <= m1 < 64 -> Z.lor (Z.shiftl m0 6) m1 = m0 * 64 + m1.
Proof.
  intros H1. rewrite Z.shiftl_mul_pow2 by lia. rewrite lor_add by lia. lia.
Qed.

Lemma assemble3 (m0 m1 m2 : Z) :
  0 <= m1 < 64 -> 0 <= m2 < 64 ->
  Z.lor (Z.lor (Z.shiftl m0 12) (Z.shiftl m1 6)) m2 = m0 * 4096 + m1 * 64 + m2.
Proof.
  intros H1 H2. rewrite !Z.shiftl_mul_pow2 by lia.
  rewrite (lor_add m0 (m1 * 2 ^ 6) 12) by lia.
  replace (m0 * 2 ^ 12 + m1 * 2 ^ 6) with ((m0 * 64 + m1) * 2 ^ 6) by lia.
  rewrite lor_add by lia. lia.
Qed.

Lemma assemble4 (m0 m1 m2 m3 : Z) :
  0 <= m1 < 64 -> 0 <= m2 < 64 -> 0 <= m3 < 64 ->
  Z.lor (Z.lor (Z.lor (Z.shiftl m0 18) (Z.shiftl m1 12)) (Z.shiftl m2 6)) m3
  = m0 * 262144 + m1 * 4096 + m2 * 64 + m3.
Proof.
  intros H1 H2 H3. rewrite !Z.shiftl_mul_pow2 by lia.
  rewrite (lor_add m0 (m1 * 2 ^ 12) 18) by lia.
  replace (m0 * 2 ^ 18 + m1 * 2 ^ 12) with ((m0 * 64 + m1) * 2 ^ 12) by lia.
  rewrite (lor_add _ (m2 * 2 ^ 6) 12) by lia.
  replace ((m0 * 64 + m1) * 2 ^ 12 + m2 * 2 ^ 6)
    with (((m0 * 64 + m1) * 64 + m2) * 2 ^ 6) by lia.
  rewrite lor_add by lia. lia.
Qed.

Lemma low_bits (y : byte) :
  128 <= bz y <= 191 -> Z.land (bz y) maskx = bz y - 128 /\ 0 <= bz y - 128 < 64.
Proof.
  intros H. destruct (land_masks (bz y)) as (-> & _).
  split; [Z.div_mod_to_equations; lia | lia].
Qed.

Ltac crunch_first :=
  unfold first, locb, hicb;
  repeat match goal with
         | |- context [?a <? ?b] => destruct (Z.ltb_spec a b)
         | |- context [?a =? ?b] => destruct (Z.eqb_spec a b)
         end; first [reflexivity | lia].

Lemma first_two (x : Z) : 0xC2 <= x < 0xE0 -> first x = FMulti 2 0x80 0xBF.
Proof. intros H. crunch_first. Qed.

Lemma first_three (x : Z) :
  0xE0 <= x < 0xF0 ->
  first x = FMulti 3 (if x =? 0xE0 then 0xA0 else 0x80)
                     (if x =? 0xED then 0x9F else 0xBF).
Proof. intros H. crunch_first. Qed.

Lemma first_four (x : Z) :
  0xF0 <= x <= 0xF4 ->
  first x = FMulti 4 (if x =? 0xF0 then 0x90 else 0x80)
                     (if x =? 0xF4 then 0x8F else 0xBF).
Proof. intros H. crunch_first. Qed.

Ltac in_range :=
  unfold locb, hicb;
  repeat match goal with
         | |- context [?a =? ?b] => destruct (Z.eqb_spec a b)
         end;
  repeat match goal with
         | |- context [?a <? ?b] => destruct (Z.ltb_spec a b); try lia
         end;
  cbn [orb].

(** The rune of a well-formed sequence of two, three and four bytes,
    whatever follows it. *)
Lemma DecodeRune_two (p0 b1 : byte) (rest : list byte) :
  0xC2 <= bz p0 < 0xE0 -> 128 <= bz b1 <= 191 ->
  DecodeRune (p0 :: b1 :: rest)
  = ((bz p0 - 192) * 64 + (bz b1 - 128), 2%nat).
Proof.
  intros H0 H1. destruct (low_bits b1 H1) as [E1 R1].
  unfold DecodeRune. rewrite first_two by exact H0.
  cbn [length Nat.ltb Nat.leb]. in_range.
  rewrite E1, assemble2 by exact R1.
  destruct (land_masks (bz p0)) as (_ & -> & _).
  f_equal. Z.div_mod_to_equations. lia.
Qed.

Lemma DecodeRune_three (p0 b1 b2 : byte) (rest : list byte) :
  0xE0 <= bz p0 < 0xF0 -> 128 <= bz b1 <= 191 ->
  (bz p0 = 0xE0 -> 0xA0 <= bz b1) -> (bz p0 = 0xED -> bz b1 <= 0x9F) ->
  128 <= bz b2 <= 191 ->
  DecodeRune (p0 :: b1 :: b2 :: rest)
  = ((bz p0 - 224) * 4096 + (bz b1 - 128) * 64 + (bz b2 - 128), 3%nat).
Proof.
  intros H0 H1 Hl Hh H2.
  destruct (low_bits b1 H1) as [E1 R1]. destruct (low_bits b2 H2) as [E2 R2].
  unfold DecodeRune. rewrite first_three by exact H0.
  cbn [length Nat.ltb Nat.leb]. in_range.
  all: rewrite E1, E2, assemble3 by assumption.
  all: destruct (land_masks (bz p0)) as (_ & _ & -> & _).
  all: f_equal; Z.div_mod_to_equations; lia.
Qed.

Lemma DecodeRune_four (p0 b1 b2 b3 : byte) (rest : list byte) :
  0xF0 <= bz p0 <= 0xF4 -> 128 <= bz b1 <= 191 ->
  (bz p0 = 0xF0 -> 0x90 <= bz b1) -> (bz p0 = 0xF4 -> bz b1 <= 0x8F) ->
  128 <= bz b2 <= 191 -> 128 <= bz b3 <= 191 ->
  DecodeRune (p0 :: b1 :: b2 :: b3 :: rest)
  = ((bz p0 - 240) * 262144 + (bz b1 - 128) * 4096 + (bz b2 - 128) * 64
     + (bz b3 - 128), 4%nat).
Proof.
  intros H0 H1 Hl Hh H2 H3.
  destruct (low_bits b1 H1) as [E1 R1]. destruct (low_bits b2 H2) as [E2 R2].
  destruct (low_bits b3 H3) as [E3 R3].
  unfold DecodeRune. rewrite first_four by exact H0.
  cbn [length Nat.ltb Nat.leb]. in_range.
  all: rewrite E1, E2, E3, assemble4 by assumption.
  all: destruct (land_masks (bz p0)) as (_ & _ & _ & ->).
  all: f_equal; Z.div_mod_to_equations; lia.
Qed.

Ltac pick_branch :=
  repeat match goal with
         | |- context [?a <? ?b] => destruct (Z.ltb_spec a b); try lia
         | |- context [?a <=? ?b] => destruct (Z.leb_spec a b); try lia
         end;
  cbn [orb andb].

Ltac bits := rewrite ?Z.shiftr_div_pow2 by lia; Z.div_mod_to_equations; lia.

(** [WriteRune] writes the bytes the rune was decoded from. *)
Lemma WriteRune_two (p0 b1 : byte) :
  0xC2 <= bz p0 < 0xE0 -> 128 <= bz b1 <= 191 ->
  WriteRune [] ((bz p0 - 192) * 64 + (bz b1 - 128)) = [p0; b1].
Proof.
  intros H0 H1. set (r := (bz p0 - 192) * 64 + (bz b1 - 128)).
  assert (Hr : 128 <= r <= 2047) by (unfold r; lia).
  unfold WriteRune, AppendRune, RuneSelf, MaxRune, surrogateMin, surrogateMax.
  rewrite (Z.mod_small r) by lia. lazy beta zeta.
  pick_branch. all: cbn [app]; f_equal; [|f_equal].
  all: first
    [ apply (leading_byte t2 _ 5); unfold t2, r; [lia | bits | lia | reflexivity | bits]
    | apply continuation_byte; [assumption | unfold r; bits] ].
Qed.

Lemma WriteRune_three (p0 b1 b2 : byte) :
  0xE0 <= bz p0 < 0xF0 -> 128 <= bz b1 <= 191 ->
  (bz p0 = 0xE0 -> 0xA0 <= bz b1) -> (bz p0 = 0xED -> bz b1 <= 0x9F) ->
  128 <= bz b2 <= 191 ->
  WriteRune [] ((bz p0 - 224) * 4096 + (bz b1 - 128) * 64 + (bz b2 - 128))
  = [p0; b1; b2].
Proof.
  intros H0 H1 Hl Hh H2.
  set (r := (bz p0 - 224) * 4096 + (bz b1 - 128) * 64 + (bz b2 - 128)).
  assert (Hr : 2048 <= r <= 65535) by (unfold r; lia).
  assert (Hs : r < 0xD800 \/ 0xDFFF < r) by (unfold r; lia).
  unfold WriteRune, AppendRune, RuneSelf, MaxRune, surrogateMin, surrogateMax.
  rewrite (Z.mod_small r) by lia. lazy beta zeta.
  pick_branch. all: cbn [app]; f_equal; [|f_equal; [|f_equal]].
  all: first
    [ apply (leading_byte t3 _ 4); unfold t3, r; [lia | bits | lia | reflexivity | bits]
    | apply continuation_byte; [assumption | unfold r; bits] ].
Qed.

Lemma WriteRune_four (p0 b1 b2 b3 : byte) :
  0xF0 <= bz p0 <= 0xF4 -> 128 <= bz b1 <= 191 ->
  (bz p0 = 0xF0 -> 0x90 <= bz b1) -> (bz p0 = 0xF4 -> bz b1 <= 0x8F) ->
  128 <= bz b2 <= 191 -> 128 <= bz b3 <= 191 ->
  WriteRune [] ((bz p0 - 240) * 262144 + (bz b1 - 128) * 4096
                + (bz b2 - 128) * 64 + (bz b3 - 128))
  = [p0; b1; b2; b3].
Proof.
  intros H0 H1 Hl Hh H2 H3.
  set (r := (bz p0 - 240) * 262144 + (bz b1 - 128) * 4096
            + (bz b2 - 128) * 64 + (bz b3 - 128)).
  assert (Hr : 65536 <= r <= 0x10FFFF) by (unfold r; lia).
  unfold WriteRune, AppendRune, RuneSelf, MaxRune, surrogateMin, surrogateMax.
  rewrite (Z.mod_small r) by lia. lazy beta zeta.
  pick_branch. all: cbn [app]; f_equal; [|f_equal; [|f_equal; [|f_equal]]].
  all: first
    [ apply (leading_byte t4 _ 3); unfold t4, r; [lia | bits | lia | reflexivity | bits]
    | apply continuation_byte; [assumption | unfold r; bits] ].
Qed.

Lemma byte_of_value (x : byte) (v : Z) : bz x = v -> x = zb v.
Proof. intros <-. symmetry. apply TailerFacts.zb_bz. Qed.

(** Decoding a well-formed sequence, whatever follows it, consumes the
    sequence, and writing the rune gives the sequence back. *)
Lemma well_formed_round_trip (q rest : list byte) :
  well_formed q = true ->
  exists r, DecodeRune (q ++ rest) = (r, length q)
    /\ WriteRune [] r = q
    /\ (r = 10 -> q = [Byte.x0a]) /\ (r = 13 -> q = [Byte.x0d]).
Proof.
  intros H. apply well_formed_cases in H
    as [(x & -> & Hx)
       | [(p0 & b1 & -> & H0 & H1)
         | [(p0 & b1 & b2 & -> & H0 & H1 & Hl & Hh & H2)
           | (p0 & b1 & b2 & b3 & -> & H0 & H1 & Hl & Hh & H2 & H3)]]];
    cbn [app length].
  - exists (bz x). split; [now apply TailerFacts.DecodeRune_ascii|].
    split; [now apply (TailerFacts.WriteRune_ascii [] x)|].
    split; intros Hv; apply byte_of_value in Hv; now rewrite Hv.
  - eexists. split; [now apply DecodeRune_two|].
    split; [now apply WriteRune_two|]. split; intros; lia.
  - eexists. split; [now apply DecodeRune_three|].
    split; [now apply WriteRune_three|]. split; intros; lia.
  - eexists. split; [now apply DecodeRune_four|].
    split; [now apply WriteRune_four|]. split; intros; lia.
Qed.

Lemma fold_well_formed (p : string) (qs : list (list byte)) (tail : list byte)
  (w : World) (part : list byte) :
  Forall (fun q => well_formed q = true /\ q <> [Byte.x0a] /\ q <> [Byte.x0d]) qs ->
  fold_left (on_rune p) (runes (concat qs ++ tail)) (w, part)
  = fold_left (on_rune p) (runes tail) (w, part ++ concat qs).
Proof.
  intros H. revert part. induction H as [|q qs (Hq & H10 & H13) _ IH]; intros part.
  - cbn [concat app]. now rewrite app_nil_r.
  - cbn [concat]. rewrite <- app_assoc.
    destruct (well_formed_round_trip q (concat qs ++ tail) Hq)
      as (r & Hd & Hw & R10 & R13).
    destruct q as [|x q]; [discriminate Hq|].
    change ((x :: q) ++ concat qs ++ tail) with (x :: (q ++ concat qs ++ tail)) in *.
    rewrite TailerFacts.runes_cons, Hd. cbn [fst snd length].
    replace (S (length q) - 1)%nat with (length q) by lia.
    rewrite drop_app_length. cbn [fold_left].
    unfold on_rune at 2.
    destruct (Z.eqb_spec r 13) as [E | _]; [now apply R13 in E|].
    destruct (Z.eqb_spec r 10) as [E | _]; [now apply R10 in E|].
    cbn [fst snd]. rewrite WriteRune_app, Hw, IH.
    now rewrite <- app_assoc.
Qed.

(** X27.  Well-formed UTF-8 text passes through [decodeAndSend]
    unchanged: for a text made of well-formed encoded runes, none of them
    a newline or a carriage return, the bytes of the text are appended to
    the pending text as they are, and when a newline follows the text the
    line sent is the pending text followed by the text. *)
Theorem decodeAndSend_keeps_well_formed_text (pathname : string)
  (qs : list (list byte)) (w : World) (part : list byte) :
  Forall (fun q => well_formed q = true /\ q <> [Byte.x0a] /\ q <> [Byte.x0d]) qs ->
  decodeAndSend pathname (Z.of_nat (length (concat qs))) (concat qs) (w, part)
  = Some (w, part ++ concat qs)
  /\ decodeAndSend pathname (Z.of_nat (length (concat qs ++ [Byte.x0a])))
       (concat qs ++ [Byte.x0a]) (w, part)
     = Some (sendLine pathname (w, part ++ concat qs)).
Proof.
  intros H. rewrite !decodeAndSend_fold. split.
  - rewrite <- (app_nil_r (concat qs)) at 1.
    now rewrite (fold_well_formed pathname qs [] w part H).
  - now rewrite (fold_well_formed pathname qs [Byte.x0a] w part H).
Qed.

Lemma decodeAndSend_keeps_well_formed_text_witness :
  decodeAndSend "a.log" 7
    [Byte.x61; Byte.xc3; Byte.xa9; Byte.xe2; Byte.x82; Byte.xac; Byte.x0a]
    (fresh_world, [])
  = Some (sendLine "a.log"
            (fresh_world, [Byte.x61; Byte.xc3; Byte.xa9; Byte.xe2; Byte.x82; Byte.xac])).
Proof.
  apply (decodeAndSend_keeps_well_formed_text "a.log"
           [[Byte.x61]; [Byte.xc3; Byte.xa9]; [Byte.xe2; Byte.x82; Byte.xac]]
           fresh_world []).
  repeat constructor; discriminate.
Defined.

End TailerExtFacts.
